(** * The unified-diff extractor and renderer of the web package

    A shallow embedding of [packages/web/src/lib/diffParser.ts]
    ([parseDiffForFile], [parseDiffWithColors]) and of [parseDiffHunk] from
    [packages/web/src/lib/utils.ts], together with the part of the JavaScript
    runtime they rely on: strings as sequences of UTF-16 code units, the
    string methods [startsWith], [includes], [substring], [split], [join],
    and a backtracking regular-expression matcher in the continuation style
    of the ECMAScript specification. *)

From Stdlib Require Import Ascii String List Bool Arith Lia NArith ZArith.
Import ListNotations.

Open Scope string_scope.
Open Scope list_scope.

Set Implicit Arguments.

(** ** JavaScript strings *)

Module Js.

(** A string is a sequence of UTF-16 code units. *)
Definition char := N.
Definition str := list char.

(** String literals of the source are written as Rocq string literals; every
    literal of the two source files but one is plain ASCII. *)
Definition lit (s : string) : str :=
  map N_of_ascii (list_ascii_of_string s).

Coercion lit : string >-> str.

Definition ch (a : ascii) : char := N_of_ascii a.
Arguments ch a%_char.

Definition LF : char := 10%N.
Definition CR : char := 13%N.

(** [!s] on a string: only the empty string is falsy. *)
Definition falsy (s : str) : bool :=
  match s with [] => true | _ :: _ => false end.

(** [s.startsWith(p)], returning what is left of [s] after [p]. *)
Fixpoint strip_prefix (p s : str) : option str :=
  match p with
  | [] => Some s
  | a :: p' =>
      match s with
      | [] => None
      | b :: s' => if N.eqb a b then strip_prefix p' s' else None
      end
  end.

Definition startsWith (s p : str) : bool :=
  match strip_prefix p s with Some _ => true | None => false end.

(** [s.includes(needle)] *)
Fixpoint includes (s needle : str) : bool :=
  startsWith s needle ||
  match s with
  | [] => false
  | _ :: s' => includes s' needle
  end.

(** [s.substring(1)] *)
Definition substring1 (s : str) : str := tl s.

(** [s.split('\n')]: the current piece is accumulated in [cur]. *)
Fixpoint split_from (cur s : str) : list str :=
  match s with
  | [] => [cur]
  | c :: s' =>
      if N.eqb c LF then cur :: split_from [] s'
      else split_from (cur ++ [c]) s'
  end.

Definition split_lines (s : str) : list str := split_from [] s.

(** [lines.join('\n')] *)
Fixpoint join_lines (l : list str) : str :=
  match l with
  | [] => []
  | [x] => x
  | x :: rest => x ++ LF :: join_lines rest
  end.

(** A Number that came out of [parseInt]: a digit string denotes a natural
    number [n]; the Number holds it exactly below 2^53, and is an
    implementation-approximated value for [n] above. *)
Inductive number :=
| NaN
| Exact (n : N)
| Approx (n : N).

Definition is_digit (c : char) : bool :=
  (N.leb 48 c && N.leb c 57)%N.

Definition digit_val (c : char) : N := (c - 48)%N.

(** The value of the longest prefix of decimal digits, [None] if empty. *)
Fixpoint digits_prefix (acc : option N) (s : str) : option N :=
  match s with
  | c :: s' =>
      if is_digit c
      then digits_prefix
             (Some (match acc with
                    | None => digit_val c
                    | Some a => 10 * a + digit_val c
                    end)%N) s'
      else acc
  | [] => acc
  end.

(** [parseInt(s, 10)] on a string without leading white space or sign (the
    only kind the source passes in). *)
Definition parseInt10 (s : str) : number :=
  match digits_prefix None s with
  | None => NaN
  | Some n => if N.ltb n (2 ^ 53) then Exact n else Approx n
  end.

End Js.

Import Js.

(** ** Regular expressions *)

Module RegExp.

(** The pattern constructs that occur in the three regular expressions of the
    source.  A quantifier [*], [*?] or [+] is only ever applied to a
    one-character atom there, so [Star] carries a character predicate. *)
Inductive regex :=
| Eps
| Class (p : char -> bool)            (* [.], [\d], [[^\s]], one character *)
| Str (s : str)                       (* a run of pattern characters *)
| Seq (r1 r2 : regex)
| Alt (r1 r2 : regex)                 (* r1|r2 *)
| Star (greedy : bool) (p : char -> bool)   (* p* and p*? *)
| Opt (r : regex)                     (* r? *)
| Group (n : nat) (r : regex)         (* capturing parentheses number n *)
| Look (r : regex)                    (* (?=r) *)
| End.                                (* $ without the m flag *)

Definition Plus (p : char -> bool) : regex := Seq (Class p) (Star true p).

(** [\s]: WhiteSpace and LineTerminator code points. *)
Definition is_space (c : char) : bool :=
  existsb (N.eqb c)
    [9; 10; 11; 12; 13; 32; 160; 5760; 8232; 8233; 8239; 8287; 12288; 65279]%N
  || (N.leb 8192 c && N.leb c 8202)%N.

Definition not_space (c : char) : bool := negb (is_space c).

(** [.] with the s flag, and without it (no LineTerminator). *)
Definition any_char (c : char) : bool := true.

Definition is_line_terminator (c : char) : bool :=
  existsb (N.eqb c) [10; 13; 8232; 8233]%N.

Definition dot (c : char) : bool := negb (is_line_terminator c).

(** The state of a match: the input that is left and the captures so far. *)
Definition captures := list (nat * str).
Definition outcome := option (str * captures).
Definition cont := str -> captures -> outcome.

Fixpoint capture (n : nat) (caps : captures) : option str :=
  match caps with
  | [] => None
  | (i, s) :: rest => if Nat.eqb i n then Some s else capture n rest
  end.

(** Greedy star: one more character first, the continuation when that fails. *)
Fixpoint star_greedy (p : char -> bool) (s : str) (k : str -> outcome)
  : outcome :=
  match s with
  | c :: s' =>
      if p c
      then match star_greedy p s' k with
           | Some r => Some r
           | None => k s
           end
      else k s
  | [] => k s
  end.

(** Lazy star: the continuation first, one more character when that fails. *)
Fixpoint star_lazy (p : char -> bool) (s : str) (k : str -> outcome)
  : outcome :=
  match k s with
  | Some r => Some r
  | None =>
      match s with
      | c :: s' => if p c then star_lazy p s' k else None
      | [] => None
      end
  end.

(** The backtracking matcher, in continuation-passing style: [k] is what has
    to match after [r]; the first alternative that makes [k] succeed wins. *)
Fixpoint m (r : regex) (s : str) (caps : captures) (k : cont) : outcome :=
  match r with
  | Eps => k s caps
  | Class p =>
      match s with
      | c :: s' => if p c then k s' caps else None
      | [] => None
      end
  | Str l =>
      match strip_prefix l s with
      | Some s' => k s' caps
      | None => None
      end
  | Seq r1 r2 => m r1 s caps (fun s1 c1 => m r2 s1 c1 k)
  | Alt r1 r2 =>
      match m r1 s caps k with
      | Some x => Some x
      | None => m r2 s caps k
      end
  | Star true p => star_greedy p s (fun s' => k s' caps)
  | Star false p => star_lazy p s (fun s' => k s' caps)
  | Opt r =>
      (* an iteration that consumes nothing is rejected *)
      match m r s caps
              (fun s' c' =>
                 if Nat.eqb (length s') (length s) then None else k s' c')
      with
      | Some x => Some x
      | None => k s caps
      end
  | Group n r =>
      m r s caps
        (fun s' c' => k s' ((n, firstn (length s - length s') s) :: c'))
  | Look r =>
      match m r s caps (fun s' c' => Some (s', c')) with
      | Some (_, c') => k s c'
      | None => None
      end
  | End =>
      match s with
      | [] => k s caps
      | _ :: _ => None
      end
  end.

(** The result of [String.prototype.match] with a regular expression that
    has no g flag: [m0] is element 0 of the array, [groups] the captures. *)
Record match_result := {
  index : nat;
  m0 : str;
  groups : captures
}.

(** [str.match(r)]: the start positions are tried from left to right. *)
Fixpoint exec_from (r : regex) (i : nat) (s : str) : option match_result :=
  match m r s [] (fun s' c' => Some (s', c')) with
  | Some (s', c') =>
      Some {| index := i; m0 := firstn (length s - length s') s; groups := c' |}
  | None =>
      match s with
      | [] => None
      | _ :: s' => exec_from r (S i) s'
      end
  end.

Definition exec (r : regex) (s : str) : option match_result := exec_from r 0 s.

(** *** Building a pattern from text *)

Inductive exn := SyntaxError.

Inductive completion (A : Type) :=
| Normal (a : A)
| Throw (e : exn).

Arguments Normal {A} a.
Arguments Throw {A} e.

(** SyntaxCharacter of the pattern grammar. *)
Definition is_syntax_char (c : char) : bool :=
  existsb (N.eqb c) (lit "^$\.*+?()[]{}|").

(** The reader of the text spliced into a pattern, for the part of the
    pattern grammar that reaches it here: pattern characters, and a
    backslash followed by a syntax character (an identity escape).  Any other
    text is refused. *)
Fixpoint read_chars (src : str) : completion str :=
  match src with
  | [] => Normal []
  | c :: rest =>
      if N.eqb c (ch "\")
      then match rest with
           | e :: rest' =>
               if is_syntax_char e
               then match read_chars rest' with
                    | Normal l => Normal (e :: l)
                    | Throw x => Throw x
                    end
               else Throw SyntaxError
           | [] => Throw SyntaxError
           end
      else if is_syntax_char c then Throw SyntaxError
      else match read_chars rest with
           | Normal l => Normal (c :: l)
           | Throw x => Throw x
           end
  end.

End RegExp.

Import RegExp.

Notation "r1 ~> r2" := (Seq r1 r2) (at level 60, right associativity).

(** ** The console

    The only thing outside their arguments that the two parsers touch is
    [console.error], in their [catch] clauses.  A function that may log is a
    state transformer over the lines logged so far. *)

Module Console.

Definition console := list (str * exn).
Definition IO (A : Type) := console -> A * console.

Definition ret {A} (a : A) : IO A := fun w => (a, w).

Definition console_error (msg : str) (e : exn) : IO unit :=
  fun w => (tt, w ++ [(msg, e)]).

Definition bind {A B} (c : IO A) (f : A -> IO B) : IO B :=
  fun w => let (a, w') := c w in f a w'.

(** [try { body } catch (error) { handler }] around a body that does not log. *)
Definition try_catch {A} (body : completion A) (handler : exn -> IO A) : IO A :=
  match body with
  | Normal a => ret a
  | Throw e => handler e
  end.

(** The call returns [a] and leaves the console as it found it. *)
Definition returns {A} (c : IO A) (a : A) : Prop := forall w, c w = (a, w).

End Console.

Import Console.

(** ** utils.ts: the hunk-range lookup *)

Module Utils.

(** [/@@ -\d+(?:,\d+)? \+(\d+)(?:,(\d+))? @@/] *)
Definition hunkRegex : regex :=
  Str "@@ -" ~> Plus is_digit ~> Opt (Str "," ~> Plus is_digit) ~>
  Str " +" ~> Group 1 (Plus is_digit) ~>
  Opt (Str "," ~> Group 2 (Plus is_digit)) ~> Str " @@".

Record hunk_range := {
  startLine : number;
  lineCount : number
}.

Definition parseDiffHunk (diffHunk : str) : option hunk_range :=
  if falsy diffHunk then None
  else
    match exec hunkRegex diffHunk with
    | None => None
    | Some mt =>
        let startLine :=
          match capture 1 (groups mt) with
          | Some s => parseInt10 s
          | None => NaN
          end in
        let lineCount :=
          match capture 2 (groups mt) with
          | Some s => if falsy s then Exact 1 else parseInt10 s
          | None => Exact 1
          end in
        Some {| startLine := startLine; lineCount := lineCount |}
    end.

End Utils.

Import Utils.

(** ** diffParser.ts *)

Module DiffParser.

(** [filePath.replace(/[.*+?^${}()|[\]\\]/g, '\\$&')] *)
Definition is_special (c : char) : bool :=
  existsb (N.eqb c) (lit ".*+?^${}()|[]\").

Definition escapeRegExp (filePath : str) : str :=
  flat_map (fun c => if is_special c then [ch "\"; c] else [c]) filePath.

(** [diff --git a/[^\s]+ b/<path>.*?(?=diff --git|$)] with the s flag, where
    [path] is what the escaped file path reads as. *)
Definition filePattern_of (path : regex) : regex :=
  Str "diff --git a/" ~> Plus not_space ~> Str " b/" ~> path ~>
  Star false any_char ~> Look (Alt (Str "diff --git") End).

Definition new_filePattern (escapedPath : str) : completion regex :=
  match read_chars escapedPath with
  | Normal l => Normal (filePattern_of (Str l))
  | Throw e => Throw e
  end.

(** The statements both parsers open their [try] block with: build the
    pattern, match it, and take element 0 of the match. *)
Definition matchFileDiff (fullDiff filePath : str) : completion (option str) :=
  let escapedPath := escapeRegExp filePath in
  match new_filePattern escapedPath with
  | Throw e => Throw e
  | Normal filePattern =>
      match exec filePattern fullDiff with
      | None => Normal None
      | Some fileDiffMatch => Normal (Some (m0 fileDiffMatch))
      end
  end.

(** *** parseDiffForFile *)

Record file_sides := {
  original : str;
  modified : str
}.

Record sides_state := {
  originalLines : list str;
  modifiedLines : list str;
  sides_inHunk : bool
}.

Definition is_sides_metadata (line : str) : bool :=
  startsWith line "diff " || startsWith line "index " ||
  startsWith line "--- " || startsWith line "+++ ".

(** One turn of the loop over the lines of the file's section. *)
Definition sides_step (st : sides_state) (line : str) : sides_state :=
  if startsWith line "@@" then
    {| originalLines := originalLines st;
       modifiedLines := modifiedLines st;
       sides_inHunk := true |}
  else if negb (sides_inHunk st) then st
  else if is_sides_metadata line then st
  else if startsWith line "-" then
    {| originalLines := originalLines st ++ [substring1 line];
       modifiedLines := modifiedLines st;
       sides_inHunk := sides_inHunk st |}
  else if startsWith line "+" then
    {| originalLines := originalLines st;
       modifiedLines := modifiedLines st ++ [substring1 line];
       sides_inHunk := sides_inHunk st |}
  else
    let text := if startsWith line " " then substring1 line else line in
    {| originalLines := originalLines st ++ [text];
       modifiedLines := modifiedLines st ++ [text];
       sides_inHunk := sides_inHunk st |}.

(** What the function does with a matched section. *)
Definition sides_fileDiff (fileDiff : str) : option file_sides :=
  if includes fileDiff "Binary files" then None
  else if includes fileDiff "deleted file mode" then None
  else
    let lines := split_lines fileDiff in
    let st :=
      fold_left sides_step lines
        {| originalLines := []; modifiedLines := []; sides_inHunk := false |}
    in
    Some {| original := join_lines (originalLines st);
            modified := join_lines (modifiedLines st) |}.

Definition parseDiffForFile_try (fullDiff filePath : str)
  : completion (option file_sides) :=
  match matchFileDiff fullDiff filePath with
  | Throw e => Throw e
  | Normal None => Normal None
  | Normal (Some fileDiff) => Normal (sides_fileDiff fileDiff)
  end.

Definition parseDiffForFile (fullDiff filePath : str)
  : IO (option file_sides) :=
  if falsy fullDiff || falsy filePath then ret None
  else
    try_catch (parseDiffForFile_try fullDiff filePath)
      (fun error =>
         bind (console_error "Error parsing diff:" error)
              (fun _ => ret None)).

(** *** parseDiffWithColors *)

Record line_range := {
  startLineNumber : nat;
  endLineNumber : nat
}.

Record decoration_options := {
  isWholeLine : bool;
  className : option str;
  glyphMarginClassName : option str
}.

Record decoration := {
  range : line_range;
  options : decoration_options
}.

Record rendered := {
  content : str;
  decorations : list decoration
}.

Definition hunk_header_decoration (lineNumber : nat) : decoration :=
  {| range := {| startLineNumber := lineNumber; endLineNumber := lineNumber |};
     options := {| isWholeLine := true;
                   className := Some (lit "diff-hunk-header");
                   glyphMarginClassName := None |} |}.

Definition deleted_decoration (lineNumber : nat) : decoration :=
  {| range := {| startLineNumber := lineNumber; endLineNumber := lineNumber |};
     options := {| isWholeLine := true;
                   className := Some (lit "diff-line-deleted");
                   glyphMarginClassName := Some (lit "diff-glyph-deleted") |} |}.

Definition added_decoration (lineNumber : nat) : decoration :=
  {| range := {| startLineNumber := lineNumber; endLineNumber := lineNumber |};
     options := {| isWholeLine := true;
                   className := Some (lit "diff-line-added");
                   glyphMarginClassName := Some (lit "diff-glyph-added") |} |}.

(** The fixed results. *)
Definition binary_result : rendered :=
  {| content := "Binary file - no preview available"; decorations := [] |}.

Definition deleted_result : rendered :=
  {| content := "File was deleted in this PR"; decorations := [] |}.

Definition no_changes_result : rendered :=
  {| content := "No changes to display"; decorations := [] |}.

Definition error_result : rendered :=
  {| content := "Error parsing diff. The diff format may be unsupported.";
     decorations := [] |}.

(** [/rename from (.+)\nrename to (.+)/], no flags. *)
Definition renameRegex : regex :=
  Str "rename from " ~> Group 1 (Plus dot) ~> Str [LF] ~>
  Str "rename to " ~> Group 2 (Plus dot).

(** A capture spliced into a template literal. *)
Definition spliced (o : option str) : str :=
  match o with
  | Some s => s
  | None => "undefined"
  end.

(** The three characters the source file has between the two paths of the
    rename line (U+00E2, U+2020, U+2019). *)
Definition arrow : str := [226; 8224; 8217]%N.

Definition rename_banner (renameMatch : match_result) : str :=
  lit "// File renamed: " ++ spliced (capture 1 (groups renameMatch)) ++
  lit " " ++ arrow ++ lit " " ++ spliced (capture 2 (groups renameMatch)).

(** The lines pushed before the loop. *)
Definition banner_lines (fileDiff : str) : list str :=
  let isNewFile := includes fileDiff "new file mode" in
  let renameMatch := exec renameRegex fileDiff in
  match renameMatch with
  | Some rm => [rename_banner rm; lit ""]
  | None => if isNewFile then [lit "// New file"; lit ""] else []
  end.

Record render_state := {
  contentLines : list str;
  decos : list decoration;
  lineNumber : nat;
  inHunk : bool
}.

Definition is_metadata (line : str) : bool :=
  startsWith line "diff " || startsWith line "index " ||
  startsWith line "--- " || startsWith line "+++ " ||
  startsWith line "new file mode" || startsWith line "deleted file mode" ||
  startsWith line "rename from" || startsWith line "rename to".

(** One turn of the loop over the lines of the file's section. *)
Definition render_step (st : render_state) (line : str) : render_state :=
  if is_metadata line then st
  else if startsWith line "@@" then
    let n := S (lineNumber st) in
    {| contentLines := contentLines st ++ [line];
       decos := decos st ++ [hunk_header_decoration n];
       lineNumber := n;
       inHunk := true |}
  else if negb (inHunk st) then st
  else
    let n := S (lineNumber st) in
    if startsWith line "-" then
      {| contentLines := contentLines st ++ [substring1 line];
         decos := decos st ++ [deleted_decoration n];
         lineNumber := n;
         inHunk := inHunk st |}
    else if startsWith line "+" then
      {| contentLines := contentLines st ++ [substring1 line];
         decos := decos st ++ [added_decoration n];
         lineNumber := n;
         inHunk := inHunk st |}
    else
      {| contentLines :=
           contentLines st ++
           [if startsWith line " " then substring1 line else line];
         decos := decos st;
         lineNumber := n;
         inHunk := inHunk st |}.

Definition render_init (fileDiff : str) : render_state :=
  let banner := banner_lines fileDiff in
  {| contentLines := banner;
     decos := [];
     lineNumber := length banner;
     inHunk := false |}.

(** The state after the loop. *)
Definition render_loop (fileDiff : str) : render_state :=
  fold_left render_step (split_lines fileDiff) (render_init fileDiff).

(** What the function does with a matched section. *)
Definition render_fileDiff (fileDiff : str) : rendered :=
  if includes fileDiff "Binary files" then binary_result
  else if includes fileDiff "deleted file mode" then deleted_result
  else
    let st := render_loop fileDiff in
    if Nat.eqb (length (contentLines st)) 0 then no_changes_result
    else {| content := join_lines (contentLines st); decorations := decos st |}.

Definition parseDiffWithColors_try (fullDiff filePath : str)
  : completion (option rendered) :=
  match matchFileDiff fullDiff filePath with
  | Throw e => Throw e
  | Normal None => Normal None
  | Normal (Some fileDiff) => Normal (Some (render_fileDiff fileDiff))
  end.

(** The [catch] clause. *)
Definition parseDiffWithColors_catch (error : exn) : IO (option rendered) :=
  bind (console_error "Error parsing diff:" error)
       (fun _ => ret (Some error_result)).

Definition parseDiffWithColors (fullDiff filePath : str)
  : IO (option rendered) :=
  if falsy fullDiff || falsy filePath then ret None
  else
    try_catch (parseDiffWithColors_try fullDiff filePath)
      parseDiffWithColors_catch.

End DiffParser.

Import DiffParser.

(** ** More of the JavaScript runtime *)

Module JsMore.

(** [a === b] on strings. *)
Fixpoint eqb_str (a b : str) : bool :=
  match a, b with
  | [], [] => true
  | x :: a', y :: b' => N.eqb x y && eqb_str a' b'
  | _, _ => false
  end.

(** [s.split(sep)] for a one-character separator; the current piece is
    accumulated in [cur]. *)
Fixpoint split_on_from (sep : char) (cur s : str) : list str :=
  match s with
  | [] => [cur]
  | c :: s' =>
      if N.eqb c sep then cur :: split_on_from sep [] s'
      else split_on_from sep (cur ++ [c]) s'
  end.

Definition split_on (sep : char) (s : str) : list str :=
  split_on_from sep [] s.

(** The names that every object inherits from [Object.prototype]; a
    property read with one of them as key finds the inherited member. *)
Definition object_prototype_members : list str :=
  [lit "constructor"; lit "hasOwnProperty"; lit "isPrototypeOf";
   lit "propertyIsEnumerable"; lit "toLocaleString"; lit "toString";
   lit "valueOf"; lit "__proto__"; lit "__defineGetter__";
   lit "__defineSetter__"; lit "__lookupGetter__"; lit "__lookupSetter__"].

(** What a property read on an object literal with string values gives. *)
Inductive member :=
| OwnString (s : str)
| Inherited (name : str).

Fixpoint own_property (obj : list (str * str)) (key : str) : option str :=
  match obj with
  | [] => None
  | (k, v) :: rest => if eqb_str k key then Some v else own_property rest key
  end.

(** [obj[key]]: the own property, else the inherited member, else
    [undefined]. *)
Definition get_property (obj : list (str * str)) (key : str) : option member :=
  match own_property obj key with
  | Some v => Some (OwnString v)
  | None =>
      if existsb (eqb_str key) object_prototype_members
      then Some (Inherited key)
      else None
  end.

(** Leading white space, as [parseInt] skips it. *)
Fixpoint skip_space (s : str) : str :=
  match s with
  | c :: s' => if is_space c then skip_space s' else s
  | [] => []
  end.

(** [parseInt(s, 10)] on a string: white space, an optional sign, and the
    longest run of decimal digits; [None] is NaN.  The result is the integer
    the digits denote; the Number holds it exactly below 2^53 and is the
    nearest Number above, which no comparison with a smaller integer
    constant can tell apart. *)
Definition parseInt (s : str) : option Z :=
  let t := skip_space s in
  let signed :=
    match t with
    | c :: u =>
        if N.eqb c (ch "-") then ((-1)%Z, u)
        else if N.eqb c (ch "+") then (1%Z, u)
        else (1%Z, t)
    | [] => (1%Z, t)
    end in
  match digits_prefix None (snd signed) with
  | None => None
  | Some n => Some (fst signed * Z.of_N n)%Z
  end.

(** A Number that is a safe integer: an integer of absolute value below
    2^53, which a Number holds exactly. *)
Record safe_integer := {
  int_value : Z;
  int_safe : Z.ltb (Z.abs int_value) (2 ^ 53) = true
}.

(** The decimal digits of [n] in front of [acc], the last digit first to be
    produced; [fuel] bounds the number of digits. *)
Fixpoint digits_of (fuel : nat) (n : N) (acc : str) : str :=
  match fuel with
  | O => acc
  | S fuel' =>
      let acc' := (48 + n mod 10)%N :: acc in
      if N.ltb n 10 then acc' else digits_of fuel' (n / 10)%N acc'
  end.

(** [ToString] of a safe integer, which [parseInt] applies to an argument
    that is a Number: a minus sign for a negative number, and the decimal
    digits. *)
Definition number_to_string (x : safe_integer) : str :=
  let n := Z.abs_N (int_value x) in
  let ds := digits_of (S (N.to_nat (N.log2 n))) n [] in
  if Z.ltb (int_value x) 0 then ch "-" :: ds else ds.

End JsMore.

Import JsMore.

(** ** utils.ts: file extensions and languages *)

Module UtilsPaths.

Definition getFileExtension (path : str) : str :=
  let parts := split_on (ch ".") path in
  if Nat.ltb 1 (length parts) then last parts [] else [].

Definition languageMap : list (str * str) :=
  [(lit "ts", lit "typescript"); (lit "tsx", lit "typescript");
   (lit "js", lit "javascript"); (lit "jsx", lit "javascript");
   (lit "json", lit "json"); (lit "html", lit "html");
   (lit "css", lit "css"); (lit "scss", lit "scss");
   (lit "py", lit "python"); (lit "rb", lit "ruby");
   (lit "go", lit "go"); (lit "rs", lit "rust");
   (lit "java", lit "java"); (lit "cpp", lit "cpp");
   (lit "c", lit "c"); (lit "md", lit "markdown");
   (lit "yml", lit "yaml"); (lit "yaml", lit "yaml");
   (lit "xml", lit "xml"); (lit "sh", lit "shell");
   (lit "sql", lit "sql")].

(** [languageMap[ext] || 'plaintext']: an inherited member is truthy and is
    returned as it is. *)
Definition getLanguageFromPath (path : str) : member :=
  let ext := getFileExtension path in
  match get_property languageMap ext with
  | Some (OwnString v) => if falsy v then OwnString "plaintext" else OwnString v
  | Some (Inherited name) => Inherited name
  | None => OwnString "plaintext"
  end.

Definition getStateColor (state : str) : str :=
  if eqb_str state "OPEN" then lit "text-green-500"
  else if eqb_str state "CLOSED" then lit "text-red-500"
  else if eqb_str state "MERGED" then lit "text-purple-500"
  else lit "text-text-secondary".

End UtilsPaths.

Import UtilsPaths.

(** ** validation.ts *)

Module Validation.

(** A call returns a value or throws an [Error] with a message. *)
Inductive result (A : Type) :=
| Returned (a : A)
| Threw (message : str).

Arguments Returned {A} a.
Arguments Threw {A} message.

(** [validatePRNumber], on a string argument. *)
Definition validatePRNumber (value : str) : result Z :=
  match parseInt value with
  | None => Threw "Invalid PR number"
  | Some num =>
      if Z.ltb num 1 || Z.ltb 999999 num then Threw "Invalid PR number"
      else Returned num
  end.

Definition validateFilePath (path : str) : result str :=
  if falsy path then Threw "Invalid file path"
  else if includes path ".." || startsWith path "/" then
    Threw "Invalid file path: directory traversal not allowed"
  else if Nat.ltb 1000 (length path) then Threw "File path too long"
  else if includes path [0%N] then
    Threw "Invalid file path: null bytes not allowed"
  else Returned path.

(** The arguments of [validateLineNumber] that are modelled, out of its
    parameter type [any]: [undefined], [null], a string, and a Number that
    is a safe integer. *)
Inductive argument :=
| ArgUndefined
| ArgNull
| ArgString (s : str)
| ArgNumber (x : safe_integer).

(** [parseInt(value, 10)]: the argument is converted to a string first. *)
Definition parseInt_of (value : argument) : option Z :=
  match value with
  | ArgUndefined => parseInt "undefined"
  | ArgNull => parseInt "null"
  | ArgString s => parseInt s
  | ArgNumber x => parseInt (number_to_string x)
  end.

(** [validateLineNumber]; the result [None] is [undefined]. *)
Definition validateLineNumber (value : argument) : option Z :=
  match value with
  | ArgUndefined | ArgNull => None
  | _ =>
      match parseInt_of value with
      | None => None
      | Some num =>
          if Z.ltb num 1 || Z.ltb 1000000 num then None else Some num
      end
  end.

End Validation.

Import Validation.

(** ** cache.ts *)

Module Cache.

(** [Date.now()] is the argument [now] of the operations that read the
    clock; times and durations are integers of milliseconds. *)
Record entry (T : Type) := {
  value : T;
  expiresAt : Z
}.

Arguments value {T} e.
Arguments expiresAt {T} e.

(** The [Map] of the cache, in insertion order. *)
Definition store (T : Type) := list (str * entry T).

Fixpoint map_get {T} (st : store T) (key : str) : option (entry T) :=
  match st with
  | [] => None
  | (k, e) :: rest => if eqb_str k key then Some e else map_get rest key
  end.

(** [Map.prototype.set]: an existing key keeps its place. *)
Fixpoint map_set {T} (st : store T) (key : str) (e : entry T) : store T :=
  match st with
  | [] => [(key, e)]
  | (k, e') :: rest =>
      if eqb_str k key then (k, e) :: rest else (k, e') :: map_set rest key e
  end.

Definition map_delete {T} (st : store T) (key : str) : store T :=
  filter (fun ke => negb (eqb_str (fst ke) key)) st.

Definition defaultTTL : Z := (5 * 60 * 1000)%Z.

Definition set {T} (now : Z) (key : str) (v : T) (ttl : option Z)
                   (st : store T) : store T :=
  let expiresAt :=
    (now + match ttl with Some t => t | None => defaultTTL end)%Z in
  map_set st key {| value := v; expiresAt := expiresAt |}.

(** [get] returns the value or null, and the store it leaves. *)
Definition get {T} (now : Z) (key : str) (st : store T) : option T * store T :=
  match map_get st key with
  | None => (None, st)
  | Some e =>
      if Z.ltb (expiresAt e) now then (None, map_delete st key)
      else (Some (value e), st)
  end.

Definition delete {T} (key : str) (st : store T) : store T :=
  map_delete st key.

Definition clear {T} (st : store T) : store T := [].

(** The body of the callback that [startCleanup] schedules. *)
Definition cleanup {T} (now : Z) (st : store T) : store T :=
  fold_left
    (fun acc ke => if Z.ltb (expiresAt (snd ke)) now
                   then map_delete acc (fst ke) else acc)
    st st.

End Cache.

(** ** The two parsers over any pattern constructor

    The bodies of [parseDiffForFile] and [parseDiffWithColors] with
    [new RegExp] as a parameter; the two parsers are these at
    [new_filePattern]. *)

Module DiffParserOver.

Definition matchFileDiff_with (newRegExp : str -> completion regex)
    (fullDiff filePath : str) : completion (option str) :=
  let escapedPath := escapeRegExp filePath in
  match newRegExp escapedPath with
  | Throw e => Throw e
  | Normal filePattern =>
      match exec filePattern fullDiff with
      | None => Normal None
      | Some fileDiffMatch => Normal (Some (m0 fileDiffMatch))
      end
  end.

Definition parseDiffForFile_with (newRegExp : str -> completion regex)
    (fullDiff filePath : str) : IO (option file_sides) :=
  if falsy fullDiff || falsy filePath then ret None
  else
    try_catch
      match matchFileDiff_with newRegExp fullDiff filePath with
      | Throw e => Throw e
      | Normal None => Normal None
      | Normal (Some fileDiff) => Normal (sides_fileDiff fileDiff)
      end
      (fun error =>
         bind (console_error "Error parsing diff:" error)
              (fun _ => ret None)).

Definition parseDiffWithColors_with (newRegExp : str -> completion regex)
    (fullDiff filePath : str) : IO (option rendered) :=
  if falsy fullDiff || falsy filePath then ret None
  else
    try_catch
      match matchFileDiff_with newRegExp fullDiff filePath with
      | Throw e => Throw e
      | Normal None => Normal None
      | Normal (Some fileDiff) => Normal (Some (render_fileDiff fileDiff))
      end
      parseDiffWithColors_catch.

End DiffParserOver.

Import DiffParserOver.

(** * Specification

    The notions the properties below are stated with: a declarative reading
    of the patterns, the headers and markers of the unified-diff grammar, a
    line-by-line description of the display buffer and its annotations, and
    the sample diffs. *)

(** ** A declarative reading of the patterns *)

(** [matches r s c s' c']: starting on input [s] with captures [c], the
    pattern [r] can consume what is in front of [s'] and leave captures
    [c']. *)
Inductive matches : regex -> str -> captures -> str -> captures -> Prop :=
| M_Eps s c : matches Eps s c s c
| M_Class p a s c : p a = true -> matches (Class p) (a :: s) c s c
| M_Str l s c : matches (Str l) (l ++ s) c s c
| M_Seq r1 r2 s c s1 c1 s2 c2 :
    matches r1 s c s1 c1 -> matches r2 s1 c1 s2 c2 ->
    matches (Seq r1 r2) s c s2 c2
| M_AltL r1 r2 s c s' c' : matches r1 s c s' c' -> matches (Alt r1 r2) s c s' c'
| M_AltR r1 r2 s c s' c' : matches r2 s c s' c' -> matches (Alt r1 r2) s c s' c'
| M_Star g p w s c : forallb p w = true -> matches (Star g p) (w ++ s) c s c
| M_OptSkip r s c : matches (Opt r) s c s c
| M_OptTake r s c s' c' :
    matches r s c s' c' -> length s' <> length s -> matches (Opt r) s c s' c'
| M_Group n r s c s' c' :
    matches r s c s' c' ->
    matches (Group n r) s c s' ((n, firstn (length s - length s') s) :: c')
| M_Look r s c s' c' : matches r s c s' c' -> matches (Look r) s c s c'
| M_End c : matches End [] c [] c.

Definition accept : cont := fun s' c' => Some (s', c').

(** ** File sections *)

(** The section of [filePath] in [fullDiff], as the matcher finds it. *)
Definition extract (fullDiff filePath : str) : option str :=
  match exec (filePattern_of (Str filePath)) fullDiff with
  | Some mr => Some (m0 mr)
  | None => None
  end.

(** A header for [filePath]: [diff --git a/<old> b/<filePath>], where
    [<old>] is a non-empty run without white space.  The pattern puts nothing
    after the path that would delimit it. *)
Definition file_header (filePath h : str) : Prop :=
  exists old,
    h = lit "diff --git a/" ++ old ++ lit " b/" ++ filePath /\
    old <> [] /\ forallb not_space old = true.

(** The text of such a header occurs somewhere in [fullDiff]. *)
Definition has_file_header (fullDiff filePath : str) : Prop :=
  exists pre h post, fullDiff = pre ++ h ++ post /\ file_header filePath h.

Definition contains (s needle : str) : Prop :=
  exists pre post, s = pre ++ needle ++ post.

(** ** The values returned *)

(** The value [parseDiffForFile] returns. *)
Definition sides_value (fullDiff filePath : str) : option file_sides :=
  if falsy fullDiff || falsy filePath then None
  else match extract fullDiff filePath with
       | Some fileDiff => sides_fileDiff fileDiff
       | None => None
       end.

(** The value [parseDiffWithColors] returns. *)
Definition render_value (fullDiff filePath : str) : option rendered :=
  if falsy fullDiff || falsy filePath then None
  else match extract fullDiff filePath with
       | Some fileDiff => Some (render_fileDiff fileDiff)
       | None => None
       end.

(** ** The display buffer, line by line *)

(** Where a display line comes from. *)
Inductive origin := HunkHeader | Deleted | Added | Context.

Definition origin_eqb (a b : origin) : bool :=
  match a, b with
  | HunkHeader, HunkHeader | Deleted, Deleted
  | Added, Added | Context, Context => true
  | _, _ => false
  end.

(** The origin of a source line that is displayed: [@@], [-], [+], other. *)
Definition line_origin (line : str) : origin :=
  if startsWith line "@@" then HunkHeader
  else if startsWith line "-" then Deleted
  else if startsWith line "+" then Added
  else Context.

(** The source lines that get a display line: those that are not metadata,
    from the first hunk header on. *)
Fixpoint displayed (in_hunk : bool) (lines : list str) : list str :=
  match lines with
  | [] => []
  | line :: rest =>
      if is_metadata line then displayed in_hunk rest
      else if startsWith line "@@" then line :: displayed true rest
      else if in_hunk then line :: displayed in_hunk rest
      else displayed in_hunk rest
  end.

(** The text shown for a source line. *)
Definition display_text (line : str) : str :=
  match line_origin line with
  | HunkHeader => line
  | Deleted | Added => substring1 line
  | Context => if startsWith line " " then substring1 line else line
  end.

(** The annotation of a line of a given origin at display line [n]. *)
Definition annotation (o : origin) (n : nat) : list decoration :=
  match o with
  | HunkHeader => [hunk_header_decoration n]
  | Deleted => [deleted_decoration n]
  | Added => [added_decoration n]
  | Context => []
  end.

(** The annotations of the displayed source lines [src], the first of which
    is display line [n + 1]. *)
Fixpoint annotations_from (n : nat) (src : list str) : list decoration :=
  match src with
  | [] => []
  | line :: rest =>
      annotation (line_origin line) (S n) ++ annotations_from (S n) rest
  end.

Definition after_hunk (in_hunk : bool) (lines : list str) : bool :=
  in_hunk ||
  existsb (fun l => negb (is_metadata l) && startsWith l "@@") lines.

(** The displayed source lines of a section. *)
Definition source_lines (fileDiff : str) : list str :=
  displayed false (split_lines fileDiff).

(** ** Annotations and the lines they cover *)

Definition str_eqb (a b : str) : bool :=
  if list_eq_dec N.eq_dec a b then true else false.

(** The category of an annotation, read off its body-highlight class. *)
Definition category (d : decoration) : option origin :=
  match className (options d) with
  | Some c =>
      if str_eqb c "diff-hunk-header" then Some HunkHeader
      else if str_eqb c "diff-line-deleted" then Some Deleted
      else if str_eqb c "diff-line-added" then Some Added
      else None
  | None => None
  end.

Definition has_category (o : origin) (d : decoration) : bool :=
  match category d with
  | Some o' => origin_eqb o o'
  | None => false
  end.

Definition count_category (o : origin) (ds : list decoration) : nat :=
  length (filter (has_category o) ds).

Definition count_origin (o : origin) (src : list str) : nat :=
  length (filter (fun l => origin_eqb o (line_origin l)) src).

(** The annotations whose range covers display line [n]. *)
Definition covers (n : nat) (d : decoration) : bool :=
  Nat.leb (startLineNumber (range d)) n && Nat.leb n (endLineNumber (range d)).

Definition annotations_at (n : nat) (ds : list decoration) : list decoration :=
  filter (covers n) ds.

Definition one_line (d : decoration) : Prop :=
  startLineNumber (range d) = endLineNumber (range d).

Definition before (a b : decoration) : Prop :=
  endLineNumber (range a) < startLineNumber (range b).

(** ** Rename markers *)

(** The two marker lines of a rename, one right after the other. *)
Definition rename_markers (old new : str) : str :=
  lit "rename from " ++ old ++ [LF] ++ lit "rename to " ++ new.

(** A non-empty text without line terminator. *)
Definition path_text (s : str) : Prop :=
  s <> [] /\ forallb dot s = true.

(** The end of a line: the end of the text or a line terminator. *)
Definition line_end (post : str) : Prop :=
  match post with
  | [] => True
  | c :: _ => dot c = false
  end.

Definition has_rename_markers (fileDiff : str) : Prop :=
  exists pre old new post,
    fileDiff = pre ++ rename_markers old new ++ post /\
    path_text old /\ path_text new.

(** The marker lines for [old] and [new] start after [pre], and [new] runs
    to the end of its line. *)
Definition rename_at (fileDiff pre old new : str) : Prop :=
  exists post,
    fileDiff = pre ++ rename_markers old new ++ post /\
    path_text old /\ path_text new /\ line_end post.

(** [old] and [new] are the paths of the first marker lines of the section. *)
Definition first_rename (fileDiff old new : str) : Prop :=
  exists pre,
    rename_at fileDiff pre old new /\
    forall pre' old' new',
      rename_at fileDiff pre' old' new' -> length pre <= length pre'.

Definition rename_line (old new : str) : str :=
  lit "// File renamed: " ++ old ++ lit " " ++ arrow ++ lit " " ++ new.

(** ** The hunk-header grammar *)

(** A non-empty run of decimal digits. *)
Definition digits (d : str) : Prop :=
  d <> [] /\ forallb is_digit d = true.

(** The number a run of digits denotes. *)
Definition decimal (d : str) : N :=
  fold_left (fun acc c => 10 * acc + digit_val c)%N d 0%N.

Definition to_number (n : N) : number :=
  if N.ltb n (2 ^ 53) then Exact n else Approx n.

(** The optional [,count] of the grammar. *)
Definition count_suffix (o : str) (count : option str) : Prop :=
  (o = [] /\ count = None) \/
  (exists d, o = lit "," ++ d /\ digits d /\ count = Some d).

(** [h] reads [@@ -oldStart[,oldCount] +newStart[,newCount] @@]. *)
Definition hunk_header (h newStart : str) (newCount : option str) : Prop :=
  exists oldStart o1 oldCount o2,
    h = lit "@@ -" ++ oldStart ++ o1 ++ lit " +" ++ newStart ++ o2 ++ lit " @@" /\
    digits oldStart /\ count_suffix o1 oldCount /\
    digits newStart /\ count_suffix o2 newCount.

(** The range the grammar's [newStart] and [newCount] stand for. *)
Definition range_of (newStart : str) (newCount : option str) : hunk_range :=
  {| startLine := to_number (decimal newStart);
     lineCount := match newCount with
                  | Some d => to_number (decimal d)
                  | None => Exact 1
                  end |}.

(** A hunk header occurs somewhere in [s]. *)
Definition has_hunk_header (s : str) : Prop :=
  exists pre h post newStart newCount,
    s = pre ++ h ++ post /\ hunk_header h newStart newCount.

Definition hunk_captures (newStart : str) (newCount : option str) : captures :=
  match newCount with
  | Some d => [(2, d); (1, newStart)]
  | None => [(1, newStart)]
  end.

Definition space : char := 32%N.

(** ** Sample diffs *)

Definition diff_a_ts_bak : str :=
"diff --git a/a.ts.bak b/a.ts.bak
index 123abc..456def 100644
--- a/a.ts.bak
+++ b/a.ts.bak
@@ -1 +1 @@
-old backup
+new backup".

Definition diff_a_ts : str :=
"diff --git a/a.ts b/a.ts
index 789abc..012def 100644
--- a/a.ts
+++ b/a.ts
@@ -1 +1 @@
-old source
+new source".

Definition diff_bak_then_ts : str := diff_a_ts_bak ++ [LF] ++ diff_a_ts.

Definition diff_binary_deleted : str :=
"diff --git a/image.png b/image.png
deleted file mode 100644
index 123abc..0000000
Binary files a/image.png and /dev/null differ".

Definition diff_deleted : str :=
"diff --git a/deleted.txt b/deleted.txt
deleted file mode 100644
index 123abc..0000000
--- a/deleted.txt
+++ /dev/null
@@ -1,3 +0,0 @@
-line 1
-line 2
-line 3".

Definition diff_empty : str :=
"diff --git a/empty.txt b/empty.txt
index 123abc..456def 100644
--- a/empty.txt
+++ b/empty.txt".

Definition diff_test_txt : str :=
"diff --git a/test.txt b/test.txt
index 123abc..456def 100644
--- a/test.txt
+++ b/test.txt
@@ -1,2 +1,3 @@
 existing line
-removed line
+added line
+another added line".

Definition rendered_test_txt : rendered :=
  {| content := "@@ -1,2 +1,3 @@
existing line
removed line
added line
another added line";
     decorations := [hunk_header_decoration 1; deleted_decoration 3;
                     added_decoration 4; added_decoration 5] |}.

Definition diff_renamed : str :=
"diff --git a/old-name.txt b/new-name.txt
similarity index 100%
rename from old-name.txt
rename to new-name.txt
index 123abc..123abc 100644
--- a/old-name.txt
+++ b/new-name.txt
@@ -1,1 +1,1 @@
 content
+more content".

Definition diff_new_file : str :=
"diff --git a/new-file.txt b/new-file.txt
new file mode 100644
index 0000000..123abc
--- /dev/null
+++ b/new-file.txt
@@ -0,0 +1,3 @@
+line 1
+line 2
+line 3".

Definition diff_renamed_binary : str :=
"diff --git a/old.png b/new.png
similarity index 90%
rename from old.png
rename to new.png
index 123abc..456def 100644
Binary files a/old.png and b/new.png differ".

Definition diff_new_binary : str :=
"diff --git a/logo.png b/logo.png
new file mode 100644
index 0000000..123abc
Binary files /dev/null and b/logo.png differ".

Definition diff_new_with_deletion : str :=
"diff --git a/new-file.txt b/new-file.txt
new file mode 100644
index 0000000..123abc
--- /dev/null
+++ b/new-file.txt
@@ -0,0 +1,1 @@
+line 1
-line 0".

Definition diff_markers_apart : str :=
"diff --git a/old.txt b/new.txt
rename from old.txt
similarity index 100%
rename to new.txt
@@ -1,1 +1,1 @@
+more".

(** The marker occurs in one line of the section only, a displayed line of
    a hunk body. *)
Definition only_in_hunk_body (marker fileDiff line : str) : Prop :=
  filter (fun l => includes l marker) (split_lines fileDiff) = [line] /\
  In line (source_lines fileDiff) /\
  line_origin line <> HunkHeader.

Definition diff_mentions_deleted : str :=
"diff --git a/notes.md b/notes.md
index 123abc..456def 100644
--- a/notes.md
+++ b/notes.md
@@ -1,1 +1,2 @@
 How git reports a removed file
+It prints deleted file mode 100644".

Definition diff_mentions_binary : str :=
"diff --git a/notes.md b/notes.md
index 123abc..456def 100644
--- a/notes.md
+++ b/notes.md
@@ -1,1 +1,2 @@
 What git prints for images
+Binary files a/x.png and b/x.png differ".

(** ** The two sides, line by line *)

(** The source lines that [parseDiffForFile] pushes to a side: the lines
    after the first hunk header that are neither hunk headers nor metadata. *)
Fixpoint sides_body (in_hunk : bool) (lines : list str) : list str :=
  match lines with
  | [] => []
  | line :: rest =>
      if startsWith line "@@" then sides_body true rest
      else if in_hunk && negb (is_sides_metadata line)
           then line :: sides_body in_hunk rest
           else sides_body in_hunk rest
  end.

(** The text a body line contributes to a side. *)
Definition side_text (line : str) : str :=
  if startsWith line "-" then substring1 line
  else if startsWith line "+" then substring1 line
  else if startsWith line " " then substring1 line
  else line.



(** ** Paths, numbers and the cache *)

Definition dot_char : char := ch ".".

(** The text has no syntax character of the pattern grammar in it. *)
Definition plain_text (s : str) : Prop :=
  forallb (fun c => negb (is_special c)) s = true.

(** The optional plus sign in front of a number. *)
Definition plus_sign (s : str) : Prop := s = [] \/ s = lit "+".

(** What follows a run of digits: the end, or something that is no digit. *)
Definition no_digit_ahead (tail : str) : Prop :=
  match tail with
  | [] => True
  | c :: _ => is_digit c = false
  end.

(** [s] is white space, an optional plus sign, the digits [d], and a tail
    that does not go on with a digit. *)
Definition reads_as (s d : str) : Prop :=
  exists ws sign tail,
    s = ws ++ sign ++ d ++ tail /\
    forallb is_space ws = true /\ plus_sign sign /\
    digits d /\ no_digit_ahead tail.

(** An entry that [get] would still serve at time [now]. *)
Definition live {T} (now : Z) (e : Cache.entry T) : Prop :=
  (now <= Cache.expiresAt e)%Z.

Definition live_b {T} (now : Z) (ke : str * Cache.entry T) : bool :=
  negb (Z.ltb (Cache.expiresAt (snd ke)) now).


(** ** Headers that name a path and nothing longer *)

(** What may follow the path of a header that names it: white space (the
    end of the line) or the end of the diff. *)
Definition path_end (post : str) : Prop :=
  match post with
  | [] => True
  | c :: _ => is_space c = true
  end.

(** A header whose new path is [filePath] occurs in [fullDiff]. *)
Definition names_path (fullDiff filePath : str) : Prop :=
  exists pre h post,
    fullDiff = pre ++ h ++ post /\ file_header filePath h /\ path_end post.

(** The header pattern with the end of the path delimited; it serves to
    decide [names_path]. *)
Definition delimitedPattern (filePath : str) : regex :=
  Str "diff --git a/" ~> Plus not_space ~> Str " b/" ~> Str filePath ~>
  Look (Alt (Class is_space) End).

(** A pattern constructor that throws. *)
Definition throwing_RegExp (source : str) : completion regex :=
  Throw SyntaxError.

(** ** Line ends written CR LF *)

(** The text with every line feed preceded by a carriage return. *)
Definition with_crlf (s : str) : str :=
  flat_map (fun c => if N.eqb c LF then [CR; LF] else [c]) s.

Definition diff_renamed_crlf : str := with_crlf diff_renamed.

(** * Properties *)

Ltac inv H := inversion H; subst; clear H.

(** ** Strings *)

Section StringFacts.

Lemma strip_prefix_app (p r : str) : strip_prefix p (p ++ r) = Some r.
Proof.
  induction p as [|a p IH]; simpl; [reflexivity|].
  now rewrite N.eqb_refl.
Qed.

Lemma strip_prefix_inv (p s r : str) :
  strip_prefix p s = Some r -> s = p ++ r.
Proof.
  revert s; induction p as [|a p IH]; simpl; intros s H.
  - now inversion H.
  - destruct s as [|b s]; [discriminate|].
    destruct (N.eqb_spec a b) as [->|]; [|discriminate].
    now rewrite (IH _ H).
Qed.

Lemma strip_prefix_iff (p s r : str) :
  strip_prefix p s = Some r <-> s = p ++ r.
Proof.
  split; [apply strip_prefix_inv|intros ->; apply strip_prefix_app].
Qed.

Lemma startsWith_iff (s p : str) :
  startsWith s p = true <-> exists r, s = p ++ r.
Proof.
  unfold startsWith; split.
  - destruct (strip_prefix p s) eqn:E; [|discriminate].
    intros _; exists s0; now apply strip_prefix_inv.
  - intros [r ->]; now rewrite strip_prefix_app.
Qed.

Lemma startsWith_app (p r : str) : startsWith (p ++ r) p = true.
Proof. apply startsWith_iff; now exists r. Qed.

Lemma includes_iff (s needle : str) :
  includes s needle = true <-> exists pre post, s = pre ++ needle ++ post.
Proof.
  induction s as [|c s IH]; simpl.
  - rewrite orb_false_r, startsWith_iff; split.
    + intros [r H]; exists [], r; exact H.
    + intros (pre & post & H).
      destruct pre; [now exists post|discriminate].
  - rewrite orb_true_iff, startsWith_iff, IH; split.
    + intros [[r H]|(pre & post & H)].
      * exists [], r; exact H.
      * exists (c :: pre), post; now rewrite H.
    + intros (pre & post & H); destruct pre as [|c' pre].
      * left; now exists post.
      * right; exists pre, post; now inversion H.
Qed.

Lemma includes_false_iff (s needle : str) :
  includes s needle = false <-> ~ exists pre post, s = pre ++ needle ++ post.
Proof.
  rewrite <- includes_iff; destruct (includes s needle); split; intros H;
    try reflexivity; try discriminate.
  now destruct H.
Qed.

(** [split] cuts at every line feed and [join] puts the line feeds back. *)
Lemma join_split_from (cur s : str) :
  join_lines (split_from cur s) = cur ++ s.
Proof.
  revert cur; induction s as [|c s IH]; intros cur; simpl.
  - now rewrite app_nil_r.
  - destruct (N.eqb_spec c LF) as [->|Hc].
    + specialize (IH []); simpl in *.
      destruct (split_from [] s) eqn:E.
      * destruct s; simpl in E; [discriminate|].
        destruct (N.eqb c LF); discriminate.
      * now rewrite IH.
    + rewrite IH, <- app_assoc; reflexivity.
Qed.

Lemma join_split (s : str) : join_lines (split_lines s) = s.
Proof. apply join_split_from. Qed.

Lemma split_from_no_LF (cur s : str) :
  ~ In LF cur -> Forall (fun l => ~ In LF l) (split_from cur s).
Proof.
  revert cur; induction s as [|c s IH]; intros cur Hcur; simpl.
  - now constructor.
  - destruct (N.eqb_spec c LF) as [->|Hc].
    + constructor; [exact Hcur|]. apply IH; intros [].
    + apply IH; intros H; apply in_app_or in H as [H|[H|[]]]; auto.
Qed.

Lemma split_lines_no_LF (s : str) :
  Forall (fun l => ~ In LF l) (split_lines s).
Proof. apply split_from_no_LF; intros []. Qed.

End StringFacts.

(** ** The matcher against a declarative reading of the patterns *)

Section MatcherFacts.

Lemma star_greedy_sound p s k res :
  star_greedy p s k = Some res ->
  exists w s', s = w ++ s' /\ forallb p w = true /\ k s' = Some res.
Proof.
  induction s as [|a s IH]; simpl; intros H.
  - now exists [], [].
  - destruct (p a) eqn:Ea; [|now exists [], (a :: s)].
    destruct (star_greedy p s k) eqn:Es.
    + inversion H; subst; destruct (IH eq_refl) as (w & s' & -> & Hw & Hk).
      exists (a :: w), s'; simpl; now rewrite Ea, Hw.
    + now exists [], (a :: s).
Qed.

Lemma star_lazy_sound p s k res :
  star_lazy p s k = Some res ->
  exists w s', s = w ++ s' /\ forallb p w = true /\ k s' = Some res.
Proof.
  induction s as [|a s IH]; simpl; intros H.
  - destruct (k []) eqn:Ek; [|discriminate].
    inversion H; subst; now exists [], [].
  - destruct (k (a :: s)) eqn:Ek;
      [inversion H; subst; now exists [], (a :: s)|].
    destruct (p a) eqn:Ea; [|discriminate].
    destruct (IH H) as (w & s' & -> & Hw & Hk).
    exists (a :: w), s'; simpl; now rewrite Ea, Hw.
Qed.

(** Whatever the matcher returns comes from a declarative match that the
    continuation accepted. *)
Lemma m_sound r : forall s c k res,
  m r s c k = Some res ->
  exists s' c', matches r s c s' c' /\ k s' c' = Some res.
Proof.
  induction r as [|p|l|r1 IH1 r2 IH2|r1 IH1 r2 IH2|g p|r IH|n r IH|r IH|];
    simpl; intros s c k res H.
  - exists s, c; split; [constructor|exact H].
  - destruct s as [|a s]; [discriminate|].
    destruct (p a) eqn:Ea; [|discriminate].
    exists s, c; split; [now constructor|exact H].
  - destruct (strip_prefix l s) as [s'|] eqn:E; [|discriminate].
    apply strip_prefix_inv in E; subst s.
    exists s', c; split; [constructor|exact H].
  - apply IH1 in H as (s1 & c1 & H1 & H).
    apply IH2 in H as (s2 & c2 & H2 & H).
    exists s2, c2; split; [econstructor; eassumption|exact H].
  - destruct (m r1 s c k) eqn:E1.
    + inversion H; subst.
      apply IH1 in E1 as (s' & c' & H1 & Hk).
      exists s', c'; split; [now apply M_AltL|exact Hk].
    + apply IH2 in H as (s' & c' & H2 & Hk).
      exists s', c'; split; [now apply M_AltR|exact Hk].
  - destruct g;
      [apply star_greedy_sound in H|apply star_lazy_sound in H];
      destruct H as (w & s' & -> & Hw & Hk);
      exists s', c; (split; [now constructor|exact Hk]).
  - match type of H with
    | match ?x with _ => _ end = _ => destruct x eqn:E
    end.
    + inversion H; subst.
      apply IH in E as (s' & c' & Hm & Hk).
      destruct (Nat.eqb_spec (length s') (length s)); [discriminate|].
      exists s', c'; split; [now apply M_OptTake|exact Hk].
    + exists s, c; split; [apply M_OptSkip|exact H].
  - apply IH in H as (s' & c' & Hm & Hk).
    eexists s', _; split; [apply M_Group; eassumption|exact Hk].
  - destruct (m r s c (fun s' c' => Some (s', c'))) as [[s' c']|] eqn:E;
      [|discriminate].
    apply IH in E as (s1 & c1 & Hm & Hk); inversion Hk; subst.
    exists s, c'; split; [eapply M_Look; eassumption|exact H].
  - destruct s; [|discriminate].
    exists [], c; split; [constructor|exact H].
Qed.

Lemma star_greedy_complete p w s k :
  forallb p w = true -> k s <> None -> star_greedy p (w ++ s) k <> None.
Proof.
  induction w as [|a w IH]; simpl; intros Hw Hk.
  - destruct s as [|b s]; simpl; [exact Hk|].
    destruct (p b); [|exact Hk].
    destruct (star_greedy p s k); [discriminate|exact Hk].
  - apply andb_true_iff in Hw as [Ha Hw]; rewrite Ha.
    specialize (IH Hw Hk).
    destruct (star_greedy p (w ++ s) k); [discriminate|contradiction].
Qed.

Lemma star_lazy_complete p w s k :
  forallb p w = true -> k s <> None -> star_lazy p (w ++ s) k <> None.
Proof.
  induction w as [|a w IH]; simpl; intros Hw Hk.
  - destruct s as [|b s]; simpl; destruct (k _); try discriminate;
      contradiction.
  - apply andb_true_iff in Hw as [Ha Hw].
    destruct (k (a :: w ++ s)); [discriminate|].
    rewrite Ha; now apply IH.
Qed.

(** A declarative match that the continuation accepts whatever the captures
    makes the matcher return something (none of the patterns has a
    back-reference, so no continuation looks at the captures to decide). *)
Lemma m_complete r s c s' c' :
  matches r s c s' c' ->
  forall k, (forall c2, k s' c2 <> None) -> forall c0, m r s c0 k <> None.
Proof.
  induction 1 as
    [s c|p a s c Ha|l s c|r1 r2 s c s1 c1 s2 c2 _ IH1 _ IH2
    |r1 r2 s c s' c' _ IH|r1 r2 s c s' c' _ IH|g p w s c Hw|r s c
    |r s c s' c' _ IH Hlen|n r s c s' c' _ IH|r s c s' c' _ IH|c];
    intros k Hk c0; simpl.
  - apply Hk.
  - rewrite Ha; apply Hk.
  - rewrite strip_prefix_app; apply Hk.
  - apply IH1; intros c3; now apply IH2.
  - specialize (IH k Hk c0).
    destruct (m r1 s c0 k); [discriminate|contradiction].
  - destruct (m r1 s c0 k); [discriminate|now apply IH].
  - destruct g; [apply star_greedy_complete|apply star_lazy_complete];
      auto.
  - match goal with
    | |- match ?x with _ => _ end <> _ => destruct x
    end; [discriminate|apply Hk].
  - match goal with
    | |- match ?x with _ => _ end <> _ => destruct x eqn:E
    end; [discriminate|].
    exfalso; revert E; apply IH; intros c3.
    destruct (Nat.eqb_spec (length s') (length s)); [contradiction|apply Hk].
  - apply IH; intros c3; apply Hk.
  - specialize (IH (fun s' c' => Some (s', c'))).
    destruct (m r s c0 (fun s' c' => Some (s', c'))) as [[s1 c1]|] eqn:E.
    + apply Hk.
    + exfalso; revert E; apply IH; discriminate.
  - apply Hk.
Qed.

(** A match consumes a prefix of its input ([Look] consumes nothing). *)
Lemma matches_consumes r s c s' c' :
  matches r s c s' c' -> exists w, s = w ++ s'.
Proof.
  induction 1 as
    [s c|p a s c Ha|l s c|r1 r2 s c s1 c1 s2 c2 _ [w1 ->] _ [w2 ->]
    |r1 r2 s c s' c' _ IH|r1 r2 s c s' c' _ IH|g p w s c Hw|r s c
    |r s c s' c' _ IH Hlen|n r s c s' c' _ IH|r s c s' c' _ IH|c];
    try assumption.
  - now exists [].
  - now exists [a].
  - now exists l.
  - exists (w1 ++ w2); now rewrite app_assoc.
  - now exists w.
  - now exists [].
  - now exists [].
  - now exists [].
Qed.

Lemma firstn_consumed (w s' : str) :
  firstn (length (w ++ s') - length s') (w ++ s') = w.
Proof.
  rewrite length_app, Nat.add_sub.
  rewrite firstn_app, Nat.sub_diag, firstn_all; simpl; apply app_nil_r.
Qed.

Lemma exec_from_eq r i s :
  exec_from r i s =
  match m r s [] accept with
  | Some (s', c') =>
      Some {| index := i; m0 := firstn (length s - length s') s; groups := c' |}
  | None =>
      match s with
      | [] => None
      | _ :: s' => exec_from r (S i) s'
      end
  end.
Proof. destruct s; reflexivity. Qed.

Lemma m_accept_inv r s s' c' :
  m r s [] accept = Some (s', c') ->
  exists w, s = w ++ s' /\ firstn (length s - length s') s = w /\
            matches r (w ++ s') [] s' c'.
Proof.
  intros E; apply m_sound in E as (s1 & c1 & Hm & Hk).
  inversion Hk; subst.
  destruct (matches_consumes Hm) as [w ->].
  exists w; repeat split; auto using firstn_consumed.
Qed.

(** [exec] returns the match at the leftmost position that has one. *)
Lemma exec_from_Some r s : forall i mr,
  exec_from r i s = Some mr ->
  exists pre w s',
    s = pre ++ w ++ s' /\ index mr = i + length pre /\ m0 mr = w /\
    matches r (w ++ s') [] s' (groups mr) /\
    forall pre' rest, s = pre' ++ rest -> length pre' < length pre ->
                      m r rest [] accept = None.
Proof.
  induction s as [|a s IH]; intros i mr; rewrite exec_from_eq.
  - destruct (m r [] [] accept) as [[s' c']|] eqn:E; [|discriminate].
    intros H; inversion H; subst; clear H.
    apply m_accept_inv in E as (w & Hw & Hf & Hm).
    exists [], w, s'; cbn [index m0 groups]; repeat split; auto.
    simpl; intros; lia.
  - destruct (m r (a :: s) [] accept) as [[s' c']|] eqn:E.
    + intros H; inversion H; subst; clear H.
      apply m_accept_inv in E as (w & Hw & Hf & Hm).
      exists [], w, s'; cbn [index m0 groups]; repeat split; auto.
      simpl; intros; lia.
    + intros H; apply IH in H as (pre & w & s' & -> & Hi & Hm0 & Hm & Hmin).
      exists (a :: pre), w, s'; repeat split; auto.
      * simpl; lia.
      * intros pre' rest Hs Hlen; destruct pre' as [|b pre'].
        -- simpl in Hs; subst rest; exact E.
        -- inversion Hs; subst. eapply Hmin; [eassumption|simpl in Hlen; lia].
Qed.

Lemma exec_from_None r i s :
  exec_from r i s = None ->
  forall pre rest, s = pre ++ rest -> m r rest [] accept = None.
Proof.
  revert i; induction s as [|a s IH]; intros i; simpl.
  - destruct (m r [] [] _) as [[s' c']|] eqn:E; [discriminate|].
    intros _ pre rest Hs. symmetry in Hs.
    apply app_eq_nil in Hs as [_ ->]; exact E.
  - destruct (m r (a :: s) [] _) as [[s' c']|] eqn:E; [discriminate|].
    intros H pre rest Hs; destruct pre as [|b pre].
    + simpl in Hs; subst rest; exact E.
    + inversion Hs; subst; eapply IH; eauto.
Qed.

(** [exec] finds a match as soon as some position has a declarative one. *)
Lemma exec_complete r pre s s' c c' :
  matches r s c s' c' -> exec r (pre ++ s) <> None.
Proof.
  intros Hm E; apply exec_from_None with (pre := pre) (rest := s) in E; auto.
  revert E; eapply m_complete; [eassumption|discriminate].
Qed.

End MatcherFacts.

(** ** The file pattern *)

Section FilePattern.

Lemma existsb_eqb_In (c : char) (l : list char) :
  existsb (N.eqb c) l = true <-> In c l.
Proof.
  rewrite existsb_exists; split.
  - intros (x & Hx & E); apply N.eqb_eq in E; now subst.
  - intros H; exists c; split; [exact H|apply N.eqb_refl].
Qed.

(** The characters that [escapeRegExp] escapes are the syntax characters of
    the pattern grammar. *)
Lemma is_special_syntax (c : char) : is_special c = is_syntax_char c.
Proof.
  apply eq_true_iff_eq; unfold is_special, is_syntax_char.
  rewrite !existsb_eqb_In; cbn; tauto.
Qed.

Lemma backslash_special (c : char) :
  is_special c = false -> N.eqb c (ch "\") = false.
Proof.
  intros H; destruct (N.eqb_spec c (ch "\")) as [->|]; [|reflexivity].
  discriminate H.
Qed.

(** The escaped path reads back as the path itself, character for character:
    building the pattern never throws, and the path is matched literally. *)
Lemma read_escaped (filePath : str) :
  read_chars (escapeRegExp filePath) = Normal filePath.
Proof.
  induction filePath as [|c p IH]; [reflexivity|].
  unfold escapeRegExp in *; cbn [flat_map].
  destruct (is_special c) eqn:E.
  - cbn [app read_chars]; rewrite N.eqb_refl, <- is_special_syntax, E.
    now rewrite IH.
  - cbn [app read_chars].
    now rewrite (backslash_special _ E), <- is_special_syntax, E, IH.
Qed.

Lemma matchFileDiff_extract (fullDiff filePath : str) :
  matchFileDiff fullDiff filePath = Normal (extract fullDiff filePath).
Proof.
  unfold matchFileDiff, new_filePattern, extract.
  rewrite read_escaped.
  now destruct (exec _ fullDiff).
Qed.

Lemma filePattern_inv p s s' c' :
  matches (filePattern_of (Str p)) s [] s' c' ->
  exists h body,
    s = h ++ body ++ s' /\ file_header p h /\
    (s' = [] \/ exists r, s' = lit "diff --git" ++ r).
Proof.
  unfold filePattern_of, Plus; intros H.
  repeat match goal with
         | H : matches (Seq _ _) _ _ _ _ |- _ => inv H
         | H : matches (Str _) _ _ _ _ |- _ => inv H
         | H : matches (Class _) _ _ _ _ |- _ => inv H
         | H : matches (Star _ _) _ _ _ _ |- _ => inv H
         | H : matches (Look _) _ _ _ _ |- _ => inv H
         end.
  match goal with
  | Ha : not_space ?a = true, Hw : forallb not_space ?w = true,
    Hb : forallb any_char ?b = true |- _ =>
      exists (lit "diff --git a/" ++ (a :: w) ++ lit " b/" ++ p), b;
      assert (Hold : forallb not_space (a :: w) = true)
        by (simpl; now rewrite Ha, Hw)
  end.
  split; [now rewrite <- !app_assoc|].
  split.
  - eexists; split; [reflexivity|]; split; [discriminate|exact Hold].
  - match goal with H : matches (Alt _ _) _ _ _ _ |- _ => inv H end.
    + match goal with H : matches (Str _) _ _ _ _ |- _ => inv H end.
      right; eexists; reflexivity.
    + match goal with H : matches End _ _ _ _ |- _ => inv H end.
      now left.
Qed.

Lemma forallb_any (s : str) : forallb any_char s = true.
Proof. induction s; simpl; auto. Qed.

Lemma filePattern_matches p h post :
  file_header p h ->
  exists c', matches (filePattern_of (Str p)) (h ++ post) [] [] c'.
Proof.
  intros (old & -> & Hne & Hold).
  destruct old as [|a w]; [contradiction|].
  simpl in Hold; apply andb_true_iff in Hold as [Ha Hw].
  exists []; unfold filePattern_of, Plus.
  rewrite <- !app_assoc.
  eapply M_Seq; [apply M_Str|].
  eapply M_Seq; [eapply M_Seq; [apply M_Class; exact Ha|]|].
  { apply M_Star with (w := w); exact Hw. }
  eapply M_Seq; [apply M_Str|].
  eapply M_Seq; [apply M_Str|].
  eapply M_Seq.
  - replace post with (post ++ []) by apply app_nil_r.
    apply M_Star; apply forallb_any.
  - eapply M_Look; apply M_AltR; constructor.
Qed.

(** Extraction fails exactly when no header text for the path occurs. *)
Lemma extract_None_iff (fullDiff filePath : str) :
  extract fullDiff filePath = None <-> ~ has_file_header fullDiff filePath.
Proof.
  unfold extract; split.
  - destruct (exec _ fullDiff) eqn:E; [discriminate|]; intros _.
    intros (pre & h & post & -> & Hh).
    destruct (filePattern_matches post Hh) as [c' Hm].
    revert E; eapply exec_complete; eassumption.
  - intros Hno; destruct (exec _ fullDiff) eqn:E; [|reflexivity].
    exfalso; apply Hno.
    apply exec_from_Some in E as (pre & w & s' & -> & _ & _ & Hm & _).
    apply filePattern_inv in Hm as (h & body & Hs & Hh & _).
    exists pre, h, (body ++ s'); split; [now rewrite Hs|exact Hh].
Qed.

(** What is extracted starts with a header for the path, at the leftmost
    place where one occurs, and runs up to the next [diff --git] or the end
    of the input. *)
Lemma extract_Some (fullDiff filePath fileDiff : str) :
  extract fullDiff filePath = Some fileDiff ->
  exists pre h body post,
    fullDiff = pre ++ fileDiff ++ post /\ fileDiff = h ++ body /\
    file_header filePath h /\
    (post = [] \/ exists r, post = lit "diff --git" ++ r).
Proof.
  unfold extract; destruct (exec _ fullDiff) eqn:E; [|discriminate].
  intros H; inv H.
  apply exec_from_Some in E as (pre & w & s' & -> & _ & <- & Hm & _).
  apply filePattern_inv in Hm as (h & body & Hs & Hh & Hend).
  rewrite app_assoc in Hs; apply app_inv_tail in Hs.
  exists pre, h, body, s'; auto.
Qed.

End FilePattern.

(** ** What the two parsers return *)

Section Results.

Lemma parseDiffForFile_try_normal (fullDiff filePath : str) :
  parseDiffForFile_try fullDiff filePath =
  Normal match extract fullDiff filePath with
         | Some fileDiff => sides_fileDiff fileDiff
         | None => None
         end.
Proof.
  unfold parseDiffForFile_try; rewrite matchFileDiff_extract.
  now destruct (extract fullDiff filePath).
Qed.

Lemma parseDiffWithColors_try_normal (fullDiff filePath : str) :
  parseDiffWithColors_try fullDiff filePath =
  Normal match extract fullDiff filePath with
         | Some fileDiff => Some (render_fileDiff fileDiff)
         | None => None
         end.
Proof.
  unfold parseDiffWithColors_try; rewrite matchFileDiff_extract.
  now destruct (extract fullDiff filePath).
Qed.

Lemma parseDiffForFile_returns (fullDiff filePath : str) :
  returns (parseDiffForFile fullDiff filePath) (sides_value fullDiff filePath).
Proof.
  intros w; unfold parseDiffForFile, sides_value.
  destruct (falsy fullDiff || falsy filePath); [reflexivity|].
  now rewrite parseDiffForFile_try_normal.
Qed.

Lemma parseDiffWithColors_returns (fullDiff filePath : str) :
  returns (parseDiffWithColors fullDiff filePath)
          (render_value fullDiff filePath).
Proof.
  intros w; unfold parseDiffWithColors, render_value.
  destruct (falsy fullDiff || falsy filePath); [reflexivity|].
  now rewrite parseDiffWithColors_try_normal.
Qed.

Lemma returns_inj {A} (c : IO A) (a b : A) : returns c a -> returns c b -> a = b.
Proof.
  intros Ha Hb; specialize (Ha []); specialize (Hb []); congruence.
Qed.

Lemma render_returns_inv (fullDiff filePath : str) (o : option rendered) :
  returns (parseDiffWithColors fullDiff filePath) o ->
  o = render_value fullDiff filePath.
Proof.
  intros H; eapply returns_inj; [exact H|apply parseDiffWithColors_returns].
Qed.

End Results.

(** ** The rendering loop against a line-by-line description *)

Section RenderLoop.

Lemma render_step_displayed (st : render_state) (line : str) :
  render_step st line =
  let src := displayed (inHunk st) [line] in
  {| contentLines := contentLines st ++ map display_text src;
     decos := decos st ++ annotations_from (lineNumber st) src;
     lineNumber := lineNumber st + length src;
     inHunk := after_hunk (inHunk st) [line] |}.
Proof.
  destruct st as [cl ds n ih].
  unfold render_step, after_hunk.
  cbn [inHunk contentLines decos lineNumber displayed existsb].
  destruct (is_metadata line) eqn:Em, (startsWith line "@@") eqn:Eh, ih,
    (startsWith line "-") eqn:Ed, (startsWith line "+") eqn:Ea;
    cbn [negb andb orb map annotations_from length app];
    unfold display_text, line_origin; rewrite ?Eh, ?Ed, ?Ea;
    cbn [annotation app];
    rewrite ?app_nil_r, ?Nat.add_0_r, ?Nat.add_1_r; reflexivity.
Qed.

Lemma displayed_app (b : bool) (l1 l2 : list str) :
  displayed b (l1 ++ l2) = displayed b l1 ++ displayed (after_hunk b l1) l2.
Proof.
  revert b; induction l1 as [|x l1 IH]; intros b; simpl.
  - unfold after_hunk; simpl; now rewrite orb_false_r.
  - unfold after_hunk in *; simpl.
    destruct (is_metadata x); simpl; [apply IH|].
    destruct (startsWith x "@@"); simpl.
    + rewrite IH; simpl; now rewrite orb_true_r.
    + destruct b; simpl; rewrite IH; reflexivity.
Qed.

Lemma annotations_from_app (n : nat) (s1 s2 : list str) :
  annotations_from n (s1 ++ s2) =
  annotations_from n s1 ++ annotations_from (n + length s1) s2.
Proof.
  revert n; induction s1 as [|x s1 IH]; intros n; simpl.
  - now rewrite Nat.add_0_r.
  - rewrite IH, <- app_assoc, Nat.add_succ_r; reflexivity.
Qed.

(** The loop, from any state, appends the display text and the annotations
    of the displayed lines, numbering on from [lineNumber]. *)
Lemma render_fold (lines : list str) : forall st,
  fold_left render_step lines st =
  let src := displayed (inHunk st) lines in
  {| contentLines := contentLines st ++ map display_text src;
     decos := decos st ++ annotations_from (lineNumber st) src;
     lineNumber := lineNumber st + length src;
     inHunk := after_hunk (inHunk st) lines |}.
Proof.
  induction lines as [|line lines IH]; intros st.
  - destruct st; unfold after_hunk; simpl.
    now rewrite !app_nil_r, Nat.add_0_r, orb_false_r.
  - cbn [fold_left]; rewrite IH, render_step_displayed.
    cbv zeta; cbn [contentLines decos lineNumber inHunk].
    change (line :: lines) with ([line] ++ lines).
    rewrite displayed_app, map_app, annotations_from_app, length_app.
    rewrite <- !app_assoc, Nat.add_assoc.
    f_equal.
    unfold after_hunk; simpl; rewrite orb_false_r, orb_assoc; reflexivity.
Qed.

Lemma render_loop_eq (fileDiff : str) :
  let banner := banner_lines fileDiff in
  let src := source_lines fileDiff in
  contentLines (render_loop fileDiff) = banner ++ map display_text src /\
  decos (render_loop fileDiff) = annotations_from (length banner) src /\
  lineNumber (render_loop fileDiff) = length (contentLines (render_loop fileDiff)).
Proof.
  unfold render_loop; rewrite render_fold; unfold render_init; simpl.
  repeat split. now rewrite length_app, length_map.
Qed.

End RenderLoop.

(** ** Annotations *)

Section Annotations.

Lemma annotation_line (o : origin) (n : nat) :
  Forall (fun d => startLineNumber (range d) = n /\ endLineNumber (range d) = n)
         (annotation o n).
Proof. destruct o; simpl; repeat constructor. Qed.

Lemma annotations_at_annotation (o : origin) (n k : nat) :
  annotations_at k (annotation o n) = if Nat.eqb k n then annotation o n else [].
Proof.
  unfold annotations_at, covers.
  destruct (Nat.eqb_spec k n) as [->|Hk].
  - destruct o; simpl; rewrite ?Nat.leb_refl; reflexivity.
  - destruct o; simpl; try reflexivity;
      destruct (Nat.leb_spec n k), (Nat.leb_spec k n); simpl;
      try reflexivity; lia.
Qed.

Lemma annotations_from_range (src : list str) : forall off,
  Forall (fun d => off < startLineNumber (range d) /\ one_line d /\
                   endLineNumber (range d) <= off + length src)
         (annotations_from off src).
Proof.
  induction src as [|l src IH]; intros off; simpl; [constructor|].
  apply Forall_app; split.
  - eapply Forall_impl; [|apply annotation_line].
    intros d [H1 H2]; unfold one_line; lia.
  - eapply Forall_impl; [|apply IH].
    intros d (H1 & H2 & H3); unfold one_line in *; lia.
Qed.

Lemma filter_none {A} (f : A -> bool) (l : list A) :
  Forall (fun x => f x = false) l -> filter f l = [].
Proof.
  induction 1 as [|x l Hx _ IH]; simpl; [reflexivity|].
  now rewrite Hx.
Qed.

Lemma annotations_at_outside (src : list str) (off n : nat) :
  n <= off \/ off + length src < n ->
  annotations_at n (annotations_from off src) = [].
Proof.
  intros Hn; unfold annotations_at.
  apply filter_none.
  eapply Forall_impl; [|apply annotations_from_range].
  intros d (H1 & H2 & H3); unfold covers, one_line in *.
  destruct (Nat.leb_spec (startLineNumber (range d)) n),
    (Nat.leb_spec n (endLineNumber (range d))); simpl; try reflexivity; lia.
Qed.

(** Display line [off + i + 1] carries the annotation of its source line and
    no other. *)
Lemma annotations_at_line (src : list str) : forall off i line,
  nth_error src i = Some line ->
  annotations_at (off + i + 1) (annotations_from off src) =
  annotation (line_origin line) (off + i + 1).
Proof.
  induction src as [|l src IH]; intros off i line Hi.
  - destruct i; discriminate.
  - simpl; unfold annotations_at in *; rewrite filter_app.
    fold (annotations_at (off + i + 1) (annotation (line_origin l) (S off))).
    rewrite annotations_at_annotation.
    destruct i as [|i]; simpl in Hi.
    + inv Hi.
      replace (off + 0 + 1) with (S off) by lia.
      rewrite Nat.eqb_refl.
      fold (annotations_at (S off) (annotations_from (S off) src)).
      rewrite annotations_at_outside by (left; lia).
      apply app_nil_r.
    + destruct (Nat.eqb_spec (off + S i + 1) (S off)); [lia|].
      replace (off + S i + 1) with (S off + i + 1) by lia.
      cbn [app]; now apply IH.
Qed.

Lemma count_category_annotation (o o' : origin) (n : nat) :
  o <> Context ->
  count_category o (annotation o' n) = if origin_eqb o o' then 1 else 0.
Proof. destruct o, o'; intros H; try reflexivity; contradiction. Qed.

Lemma count_category_from (o : origin) (src : list str) : forall off,
  o <> Context ->
  count_category o (annotations_from off src) = count_origin o src.
Proof.
  induction src as [|l src IH]; intros off Ho; [reflexivity|].
  unfold count_category, count_origin in *; simpl.
  rewrite filter_app, length_app.
  fold (count_category o (annotation (line_origin l) (S off))).
  rewrite count_category_annotation, IH by assumption.
  now destruct (origin_eqb o (line_origin l)).
Qed.

Lemma annotations_from_length (src : list str) (off : nat) :
  length (annotations_from off src) =
  count_origin HunkHeader src + count_origin Deleted src +
  count_origin Added src.
Proof.
  revert off; induction src as [|l src IH]; intros off; [reflexivity|].
  unfold count_origin in *; simpl; rewrite length_app, IH.
  destruct (line_origin l); simpl; lia.
Qed.

Lemma annotations_from_ordered (src : list str) : forall off,
  ForallOrdPairs before (annotations_from off src).
Proof.
  induction src as [|l src IH]; intros off; simpl; [constructor|].
  pose proof (annotations_from_range src (S off)) as HF.
  destruct (line_origin l); simpl; try apply IH;
    (constructor; [|apply IH]);
    (eapply Forall_impl; [|exact HF]);
    intros d (H1 & _); unfold before; simpl; lia.
Qed.

End Annotations.

(** ** The rename pattern *)

Section RenamePattern.

Lemma m_Seq_inv r1 r2 s c k res :
  m (Seq r1 r2) s c k = Some res ->
  exists s1 c1, matches r1 s c s1 c1 /\ m r2 s1 c1 k = Some res.
Proof. simpl; intros H; now apply m_sound in H. Qed.

(** With a continuation that accepts anything, the greedy star stops only
    at a character outside the class or at the end. *)
Lemma star_greedy_maximal p (k : str -> outcome) : forall s res,
  (forall x, k x <> None) ->
  star_greedy p s k = Some res ->
  exists w s', s = w ++ s' /\ forallb p w = true /\ k s' = Some res /\
               match s' with [] => True | c :: _ => p c = false end.
Proof.
  induction s as [|a s IH]; simpl; intros res Hk H.
  - now exists [], [].
  - destruct (p a) eqn:Ea; [|exists [], (a :: s); now rewrite Ea].
    destruct (star_greedy p s k) eqn:Es.
    + inv H. destruct (IH _ Hk eq_refl) as (w & s' & -> & Hw & Hr & Hend).
      exists (a :: w), s'; simpl; now rewrite Ea, Hw.
    + exfalso; revert Es.
      apply (star_greedy_complete p [] s k eq_refl (Hk s)).
Qed.

Lemma group_plus_line_end n p s c s' c' :
  m (Group n (Plus p)) s c accept = Some (s', c') ->
  match s' with [] => True | x :: _ => p x = false end.
Proof.
  simpl; destruct s as [|a s]; [discriminate|].
  destruct (p a); [|discriminate].
  intros H; apply star_greedy_maximal in H; [|discriminate].
  destruct H as (w & s1 & _ & _ & Hk & Hend).
  unfold accept in Hk; now inv Hk.
Qed.

Lemma plus_inv p s c s' c' :
  matches (Plus p) s c s' c' ->
  exists w, s = w ++ s' /\ w <> [] /\ forallb p w = true /\ c' = c.
Proof.
  unfold Plus; intros H; inv H.
  match goal with H : matches (Class _) _ _ _ _ |- _ => inv H end.
  match goal with H : matches (Star _ _) _ _ _ _ |- _ => inv H end.
  match goal with
  | Ha : p ?a = true, Hw : forallb p ?w = true |- _ =>
      exists (a :: w); repeat split; [discriminate|];
      simpl; now rewrite Ha, Hw
  end.
Qed.

Lemma plus_intro p w s c :
  w <> [] -> forallb p w = true -> matches (Plus p) (w ++ s) c s c.
Proof.
  intros Hne Hw; destruct w as [|a w]; [contradiction|].
  simpl in Hw; apply andb_true_iff in Hw as [Ha Hw].
  unfold Plus; eapply M_Seq; [apply M_Class; exact Ha|].
  now apply M_Star.
Qed.

Lemma group_plus_inv n p s c s' c' :
  matches (Group n (Plus p)) s c s' c' ->
  exists w, s = w ++ s' /\ w <> [] /\ forallb p w = true /\
            c' = (n, w) :: c.
Proof.
  intros H; inv H.
  match goal with H : matches (Plus _) _ _ _ _ |- _ =>
    apply plus_inv in H as (w & -> & Hne & Hw & ->) end.
  exists w; rewrite firstn_consumed; auto.
Qed.

Lemma group_plus_intro n p w s c :
  w <> [] -> forallb p w = true ->
  matches (Group n (Plus p)) (w ++ s) c s ((n, w) :: c).
Proof.
  intros Hne Hw.
  assert (H : matches (Plus p) (w ++ s) c s c) by now apply plus_intro.
  apply M_Group with (n := n) in H.
  now rewrite firstn_consumed in H.
Qed.

Lemma rename_matches old new post :
  path_text old -> path_text new ->
  matches renameRegex (rename_markers old new ++ post) [] post
          [(2, new); (1, old)].
Proof.
  intros [Ho1 Ho2] [Hn1 Hn2]; unfold renameRegex, rename_markers.
  rewrite <- !app_assoc.
  eapply M_Seq; [apply M_Str|].
  eapply M_Seq; [now apply group_plus_intro|].
  eapply M_Seq; [apply M_Str|].
  eapply M_Seq; [apply M_Str|].
  now apply group_plus_intro.
Qed.

Lemma rename_inv s s' c' :
  m renameRegex s [] accept = Some (s', c') ->
  exists old new,
    s = rename_markers old new ++ s' /\ path_text old /\ path_text new /\
    line_end s' /\ c' = [(2, new); (1, old)].
Proof.
  unfold renameRegex; intros H.
  apply m_Seq_inv in H as (s1 & c1 & H1 & H); inv H1.
  apply m_Seq_inv in H as (s2 & c2 & H2 & H).
  apply group_plus_inv in H2 as (old & -> & Ho1 & Ho2 & ->).
  apply m_Seq_inv in H as (s3 & c3 & H3 & H); inv H3.
  apply m_Seq_inv in H as (s4 & c4 & H4 & H); inv H4.
  pose proof (group_plus_line_end _ _ _ _ H) as Hend.
  apply m_sound in H as (s5 & c5 & H5 & Hk); inv Hk.
  apply group_plus_inv in H5 as (new & -> & Hn1 & Hn2 & ->).
  exists old, new; unfold rename_markers, path_text, line_end.
  rewrite <- !app_assoc; auto 10.
Qed.

Lemma exec_from_Some_first r s : forall i mr,
  exec_from r i s = Some mr ->
  exists pre rest s',
    s = pre ++ rest /\ m r rest [] accept = Some (s', groups mr) /\
    forall pre' rest', s = pre' ++ rest' -> length pre' < length pre ->
                       m r rest' [] accept = None.
Proof.
  induction s as [|a s IH]; intros i mr; rewrite exec_from_eq.
  - destruct (m r [] [] accept) as [[s' c']|] eqn:E; [|discriminate].
    intros H; inv H; exists [], [], s'; repeat split; auto.
    simpl; intros; lia.
  - destruct (m r (a :: s) [] accept) as [[s' c']|] eqn:E.
    + intros H; inv H; exists [], (a :: s), s'; repeat split; auto.
      simpl; intros; lia.
    + intros H; apply IH in H as (pre & rest & s' & -> & Hm & Hmin).
      exists (a :: pre), rest, s'; repeat split; auto.
      intros pre' rest' Hs Hlen; destruct pre' as [|b pre'].
      * simpl in Hs; subst rest'; exact E.
      * inv Hs. eapply Hmin; [eassumption|simpl in Hlen; lia].
Qed.

(** What [fileDiff.match] finds for the rename pattern. *)
Lemma rename_exec_Some fileDiff mr :
  exec renameRegex fileDiff = Some mr ->
  exists old new,
    first_rename fileDiff old new /\ groups mr = [(2, new); (1, old)].
Proof.
  intros H; apply exec_from_Some_first in H as (pre & rest & s' & -> & Hm & Hmin).
  apply rename_inv in Hm as (old & new & -> & Ho & Hn & Hend & Hg).
  exists old, new; split; [|exact Hg].
  exists pre; split; [now exists s'|].
  intros pre' old' new' (post' & Hs & Ho' & Hn' & _).
  destruct (Nat.le_gt_cases (length pre) (length pre')) as [|Hlt]; [assumption|].
  exfalso; specialize (Hmin _ _ Hs Hlt); revert Hmin.
  eapply m_complete; [apply rename_matches; eassumption|discriminate].
Qed.

Lemma rename_exec_None fileDiff :
  ~ has_rename_markers fileDiff -> exec renameRegex fileDiff = None.
Proof.
  intros Hno; destruct (exec renameRegex fileDiff) as [mr|] eqn:E; [|reflexivity].
  apply rename_exec_Some in E as (old & new & (pre & (post & H & Ho & Hn & _) & _) & _).
  exfalso; apply Hno; now exists pre, old, new, post.
Qed.

Lemma rename_exec_complete fileDiff pre old new :
  rename_at fileDiff pre old new -> exec renameRegex fileDiff <> None.
Proof.
  intros (post & -> & Ho & Hn & _).
  eapply exec_complete; apply rename_matches; eassumption.
Qed.

(** A text without line feed is cut from what follows it at the first line
    feed. *)
Lemma cut_at_LF (a b x y : str) :
  ~ In LF a -> ~ In LF b -> a ++ LF :: x = b ++ LF :: y -> a = b /\ x = y.
Proof.
  revert b; induction a as [|c a IH]; intros b Ha Hb H.
  - destruct b as [|d b]; simpl in H; inv H; [auto|].
    exfalso; apply Hb; now left.
  - destruct b as [|d b]; simpl in H; inv H.
    + exfalso; apply Ha; now left.
    + destruct (IH b) as [-> ->]; auto; intros Hin; [apply Ha|apply Hb];
        now right.
Qed.

Lemma dot_no_LF (s : str) : forallb dot s = true -> ~ In LF s.
Proof.
  intros H Hin; rewrite forallb_forall in H.
  specialize (H _ Hin); discriminate.
Qed.

(** A run inside a class is cut from what follows it at the first character
    outside the class. *)
Lemma cut_at_end p (a b x y : str) :
  forallb p a = true -> forallb p b = true ->
  match x with [] => True | c :: _ => p c = false end ->
  match y with [] => True | c :: _ => p c = false end ->
  a ++ x = b ++ y -> a = b /\ x = y.
Proof.
  revert b; induction a as [|c a IH]; intros b Ha Hb Hx Hy H; simpl in *.
  - destruct b as [|d b]; simpl in H; [auto|].
    subst x; simpl in Hb; apply andb_true_iff in Hb as [Hd _]; congruence.
  - apply andb_true_iff in Ha as [Hc Ha].
    destruct b as [|d b]; simpl in H.
    + subst y; congruence.
    + inv H; simpl in Hb; apply andb_true_iff in Hb as [_ Hb].
      destruct (IH b) as [-> ->]; auto.
Qed.

Lemma same_length_prefix (a b x y : str) :
  a ++ x = b ++ y -> length a = length b -> a = b /\ x = y.
Proof.
  intros H Hl; revert b H Hl; induction a as [|c a IH]; intros [|d b] H Hl;
    simpl in *; try discriminate; auto.
  inv H; destruct (IH b) as [-> ->]; auto.
Qed.

(** The first marker lines of a section are unique. *)
Lemma first_rename_unique fileDiff old new old' new' :
  first_rename fileDiff old new -> first_rename fileDiff old' new' ->
  old = old' /\ new = new'.
Proof.
  intros (pre & Hat & Hmin) (pre' & Hat' & Hmin').
  pose proof (Hmin _ _ _ Hat') as H1; pose proof (Hmin' _ _ _ Hat) as H2.
  destruct Hat as (post & Hs & [_ Ho] & [_ Hn] & Hend).
  destruct Hat' as (post' & Hs' & [_ Ho'] & [_ Hn'] & Hend').
  rewrite Hs in Hs'.
  apply same_length_prefix in Hs' as [_ Hs']; [|lia].
  unfold rename_markers in Hs'; rewrite <- !app_assoc in Hs'.
  apply app_inv_head in Hs'.
  apply (cut_at_LF old old') in Hs' as [-> Hs']; auto using dot_no_LF.
  split; [reflexivity|].
  apply app_inv_head in Hs'.
  now apply cut_at_end with (p := dot) in Hs' as [-> _].
Qed.

(** The banner of a section whose first marker lines name [old] and [new]. *)
Lemma banner_lines_rename fileDiff old new :
  first_rename fileDiff old new ->
  banner_lines fileDiff = [rename_line old new; lit ""].
Proof.
  intros Hf; unfold banner_lines.
  destruct (exec renameRegex fileDiff) as [mr|] eqn:E.
  - apply rename_exec_Some in E as (old' & new' & Hf' & Hg).
    destruct (first_rename_unique Hf Hf') as [-> ->].
    unfold rename_banner; now rewrite Hg.
  - exfalso; destruct Hf as (pre & Hat & _).
    now apply rename_exec_complete in Hat.
Qed.

Lemma banner_lines_new fileDiff :
  ~ has_rename_markers fileDiff -> contains fileDiff "new file mode" ->
  banner_lines fileDiff = [lit "// New file"; lit ""].
Proof.
  intros Hno Hnew; unfold banner_lines.
  rewrite (rename_exec_None Hno).
  apply includes_iff in Hnew; now rewrite Hnew.
Qed.

Lemma has_rename_markers_exec fileDiff :
  has_rename_markers fileDiff -> exec renameRegex fileDiff <> None.
Proof.
  intros (pre & old & new & post & -> & Ho & Hn).
  eapply exec_complete; apply rename_matches; eassumption.
Qed.

End RenamePattern.

(** ** The hunk-header pattern *)

Section HunkPattern.

Lemma digits_prefix_all (d : str) : forall a,
  forallb is_digit d = true ->
  digits_prefix (Some a) d =
  Some (fold_left (fun acc c => 10 * acc + digit_val c)%N d a).
Proof.
  induction d as [|c d IH]; intros a H; simpl in *; [reflexivity|].
  apply andb_true_iff in H as [Hc Hd]; rewrite Hc; now apply IH.
Qed.

Lemma parseInt10_digits (d : str) :
  digits d -> parseInt10 d = to_number (decimal d).
Proof.
  intros [Hne Hd]; destruct d as [|c d]; [contradiction|].
  simpl in Hd; apply andb_true_iff in Hd as [Hc Hd].
  unfold parseInt10, decimal, to_number; cbn [digits_prefix fold_left].
  rewrite Hc, digits_prefix_all by assumption.
  now replace (10 * 0 + digit_val c)%N with (digit_val c) by lia.
Qed.

Lemma opt_count_inv s c s' c' :
  matches (Opt (Str "," ~> Plus is_digit)) s c s' c' ->
  exists o cnt, s = o ++ s' /\ count_suffix o cnt /\ c' = c.
Proof.
  intros H; inv H.
  - exists [], None; repeat split; now left.
  - match goal with H : matches (Seq _ _) _ _ _ _ |- _ => inv H end.
    match goal with H : matches (Str _) _ _ _ _ |- _ => inv H end.
    match goal with H : matches (Plus _) _ _ _ _ |- _ =>
      apply plus_inv in H as (d & -> & Hne & Hd & ->) end.
    exists (lit "," ++ d), (Some d); rewrite <- app_assoc; repeat split.
    right; exists d; repeat split; auto.
Qed.

Lemma opt_count_group_inv s c s' c' :
  matches (Opt (Str "," ~> Group 2 (Plus is_digit))) s c s' c' ->
  exists o cnt,
    s = o ++ s' /\ count_suffix o cnt /\
    c' = match cnt with Some d => (2, d) :: c | None => c end.
Proof.
  intros H; inv H.
  - exists [], None; repeat split; now left.
  - match goal with H : matches (Seq _ _) _ _ _ _ |- _ => inv H end.
    match goal with H : matches (Str _) _ _ _ _ |- _ => inv H end.
    match goal with H : matches (Group _ _) _ _ _ _ |- _ =>
      apply group_plus_inv in H as (d & -> & Hne & Hd & ->) end.
    exists (lit "," ++ d), (Some d); rewrite <- app_assoc; repeat split.
    right; exists d; repeat split; auto.
Qed.

Lemma opt_count_intro o cnt s c :
  count_suffix o cnt ->
  matches (Opt (Str "," ~> Plus is_digit)) (o ++ s) c s c.
Proof.
  intros [[-> _]|(d & -> & [Hne Hd] & _)]; [apply M_OptSkip|].
  apply M_OptTake.
  - rewrite <- app_assoc; eapply M_Seq; [apply M_Str|now apply plus_intro].
  - rewrite length_app; simpl; lia.
Qed.

Lemma opt_count_group_intro o cnt s c :
  count_suffix o cnt ->
  matches (Opt (Str "," ~> Group 2 (Plus is_digit))) (o ++ s) c s
          match cnt with Some d => (2, d) :: c | None => c end.
Proof.
  intros [[-> ->]|(d & -> & [Hne Hd] & ->)]; [apply M_OptSkip|].
  apply M_OptTake.
  - rewrite <- app_assoc; eapply M_Seq;
      [apply M_Str|now apply group_plus_intro].
  - rewrite length_app; simpl; lia.
Qed.

Lemma hunk_matches h newStart newCount post :
  hunk_header h newStart newCount ->
  matches hunkRegex (h ++ post) [] post (hunk_captures newStart newCount).
Proof.
  intros (d1 & o1 & c1 & o2 & -> & [Hn1 Hd1] & Ho1 & [Hn3 Hd3] & Ho2).
  unfold hunkRegex; rewrite <- !app_assoc.
  eapply M_Seq; [apply M_Str|].
  eapply M_Seq; [now apply plus_intro|].
  eapply M_Seq; [eapply opt_count_intro; eassumption|].
  eapply M_Seq; [apply M_Str|].
  eapply M_Seq; [now apply group_plus_intro|].
  eapply M_Seq; [eapply opt_count_group_intro; eassumption|].
  unfold hunk_captures; destruct newCount; apply M_Str.
Qed.

Lemma hunk_inv s s' c' :
  matches hunkRegex s [] s' c' ->
  exists h newStart newCount,
    s = h ++ s' /\ hunk_header h newStart newCount /\
    c' = hunk_captures newStart newCount.
Proof.
  unfold hunkRegex; intros H.
  inv H. match goal with H : matches (Str _) _ _ _ _ |- _ => inv H end.
  match goal with H : matches (Seq _ _) _ _ _ _ |- _ => inv H end.
  match goal with H : matches (Plus _) _ _ _ _ |- _ =>
    apply plus_inv in H as (d1 & -> & Hn1 & Hd1 & ->) end.
  match goal with H : matches (Seq _ _) _ _ _ _ |- _ => inv H end.
  match goal with H : matches (Opt _) _ _ _ _ |- _ =>
    apply opt_count_inv in H as (o1 & cnt1 & -> & Ho1 & ->) end.
  match goal with H : matches (Seq _ _) _ _ _ _ |- _ => inv H end.
  match goal with H : matches (Str _) _ _ _ _ |- _ => inv H end.
  match goal with H : matches (Seq _ _) _ _ _ _ |- _ => inv H end.
  match goal with H : matches (Group _ _) _ _ _ _ |- _ =>
    apply group_plus_inv in H as (d3 & -> & Hn3 & Hd3 & ->) end.
  match goal with H : matches (Seq _ _) _ _ _ _ |- _ => inv H end.
  match goal with H : matches (Opt _) _ _ _ _ |- _ =>
    apply opt_count_group_inv in H as (o2 & cnt2 & -> & Ho2 & ->) end.
  match goal with H : matches (Str _) _ _ _ _ |- _ => inv H end.
  exists (lit "@@ -" ++ d1 ++ o1 ++ lit " +" ++ d3 ++ o2 ++ lit " @@"), d3, cnt2.
  split; [now rewrite <- !app_assoc|].
  split; [|now destruct cnt2].
  exists d1, o1, cnt1, o2; repeat split; auto.
Qed.

Lemma count_suffix_follower o cnt x :
  count_suffix o cnt ->
  match o ++ space :: x with [] => True | c :: _ => is_digit c = false end.
Proof. intros [[-> _]|(d & -> & _)]; reflexivity. Qed.

Lemma count_suffix_unique o cnt o' cnt' x x' :
  count_suffix o cnt -> count_suffix o' cnt' ->
  o ++ space :: x = o' ++ space :: x' -> cnt = cnt' /\ x = x'.
Proof.
  intros [[-> ->]|(d & -> & [_ Hd] & ->)] [[-> ->]|(d' & -> & [_ Hd'] & ->)] H;
    simpl in H; try discriminate.
  - inv H; auto.
  - inv H.
    apply cut_at_end with (p := is_digit) in H1 as [-> H1];
      try assumption; try reflexivity.
    inv H1; auto.
Qed.

(** The grammar reads a text in one way only. *)
Lemma hunk_header_unique h ns nc post h' ns' nc' post' :
  hunk_header h ns nc -> hunk_header h' ns' nc' ->
  h ++ post = h' ++ post' -> ns = ns' /\ nc = nc'.
Proof.
  intros (d1 & o1 & c1 & o2 & -> & [_ Hd1] & Ho1 & [_ Hd3] & Ho2)
         (d1' & o1' & c1' & o2' & -> & [_ Hd1'] & Ho1' & [_ Hd3'] & Ho2') H.
  rewrite <- !app_assoc in H; apply app_inv_head in H.
  change (lit " +") with (space :: lit "+") in H.
  change (lit " @@") with (space :: lit "@@") in H.
  apply cut_at_end with (p := is_digit) in H as [_ H]; try assumption;
    try (simpl; eapply count_suffix_follower; eassumption).
  apply (count_suffix_unique _ _ Ho1 Ho1') in H as [_ H].
  apply app_inv_head in H.
  apply cut_at_end with (p := is_digit) in H as [-> H]; try assumption;
    try (simpl; eapply count_suffix_follower; eassumption).
  apply (count_suffix_unique _ _ Ho2 Ho2') in H as [-> _]; auto.
Qed.

Lemma hunk_header_nonempty h ns nc : hunk_header h ns nc -> h <> [].
Proof. intros (d1 & o1 & c1 & o2 & -> & _); discriminate. Qed.

Lemma range_of_captures ns nc :
  digits ns -> (forall d, nc = Some d -> digits d) ->
  {| startLine := match capture 1 (hunk_captures ns nc) with
                  | Some s => parseInt10 s
                  | None => NaN
                  end;
     lineCount := match capture 2 (hunk_captures ns nc) with
                  | Some s => if falsy s then Exact 1 else parseInt10 s
                  | None => Exact 1
                  end |} = range_of ns nc.
Proof.
  intros Hns Hnc; unfold range_of, hunk_captures.
  destruct nc as [d|]; cbn [capture Nat.eqb].
  - destruct (Hnc d eq_refl) as [Hne Hd].
    rewrite !parseInt10_digits by (auto; now split).
    destruct d; [contradiction|reflexivity].
  - now rewrite parseInt10_digits.
Qed.

Lemma hunk_header_digits h ns nc :
  hunk_header h ns nc -> digits ns /\ forall d, nc = Some d -> digits d.
Proof.
  intros (d1 & o1 & c1 & o2 & _ & _ & _ & Hns & Ho2); split; [exact Hns|].
  intros d ->; destruct Ho2 as [[_ H]|(d' & _ & Hd & H)]; [discriminate|].
  now inv H.
Qed.

(** The lookup returns the range of the leftmost hunk header. *)
Lemma parseDiffHunk_Some s r :
  parseDiffHunk s = Some r ->
  exists pre h post ns nc,
    s = pre ++ h ++ post /\ hunk_header h ns nc /\ r = range_of ns nc /\
    forall pre' h' post' ns' nc',
      s = pre' ++ h' ++ post' -> hunk_header h' ns' nc' ->
      length pre <= length pre'.
Proof.
  unfold parseDiffHunk; destruct (falsy s); [discriminate|].
  destruct (exec hunkRegex s) as [mr|] eqn:E; [|discriminate].
  intros H; inv H.
  apply exec_from_Some in E as (pre & w & s' & -> & _ & _ & Hm & Hmin).
  apply hunk_inv in Hm as (h & ns & nc & Hs & Hh & ->).
  apply app_inv_tail in Hs; subst w.
  destruct (hunk_header_digits Hh) as [Hns Hnc].
  exists pre, h, s', ns, nc; repeat split; auto using range_of_captures.
  intros pre' h' post' ns' nc' Hs' Hh'.
  destruct (Nat.le_gt_cases (length pre) (length pre')) as [|Hlt]; [assumption|].
  exfalso; specialize (Hmin _ _ Hs' Hlt); revert Hmin.
  eapply m_complete; [apply hunk_matches; eassumption|discriminate].
Qed.

Lemma parseDiffHunk_None_iff s :
  parseDiffHunk s = None <-> ~ has_hunk_header s.
Proof.
  split.
  - intros H (pre & h & post & ns & nc & -> & Hh).
    unfold parseDiffHunk in H.
    destruct (falsy (pre ++ h ++ post)) eqn:Ef.
    + apply hunk_header_nonempty in Hh.
      destruct pre; [destruct h; [contradiction|]|]; discriminate.
    + destruct (exec hunkRegex (pre ++ h ++ post)) eqn:E; [discriminate|].
      revert E; eapply exec_complete; apply hunk_matches; eassumption.
  - intros Hno; destruct (parseDiffHunk s) as [r|] eqn:E; [|reflexivity].
    apply parseDiffHunk_Some in E as (pre & h & post & ns & nc & Hs & Hh & _).
    exfalso; apply Hno; now exists pre, h, post, ns, nc.
Qed.

End HunkPattern.

(** * The claims *)

Section Claims.

Lemma returns_eq {A} (c : IO A) (a b : A) : returns c a -> a = b -> returns c b.
Proof. now intros H <-. Qed.

Lemma render_value_extract (rawDiff filePath fileDiff : str) :
  falsy filePath = false ->
  extract rawDiff filePath = Some fileDiff ->
  render_value rawDiff filePath = Some (render_fileDiff fileDiff).
Proof.
  intros Hp He; unfold render_value; rewrite Hp, He.
  destruct rawDiff; [discriminate He|reflexivity].
Qed.

Lemma render_value_inv (rawDiff filePath : str) (r : rendered) :
  render_value rawDiff filePath = Some r ->
  exists fileDiff,
    falsy filePath = false /\ extract rawDiff filePath = Some fileDiff /\
    r = render_fileDiff fileDiff.
Proof.
  unfold render_value.
  destruct (falsy rawDiff); [discriminate|].
  destruct (falsy filePath); [discriminate|]; simpl.
  destruct (extract rawDiff filePath) as [f|]; [|discriminate].
  intros H; inv H; now exists f.
Qed.

(** *** C1: the end of the requested path is not delimited *)

(** C1 (what the code does where the claim fails): a header that names
    [filePath] followed by any further text [ext] is matched by a request
    for [filePath]; asked for [a.ts] on a diff whose only section is that of
    [a.ts.bak], both parsers return that section instead of not-found; and
    when the section of [a.ts.bak] comes before the one of [a.ts], asking for
    [a.ts] returns the content of [a.ts.bak]. *)
Theorem C1_prefix_of_other_path_is_matched :
  (forall filePath ext rest : str,
     extract (lit "diff --git a/x b/" ++ filePath ++ ext ++ rest) filePath
     <> None) /\
  extract diff_a_ts_bak "a.ts" = Some diff_a_ts_bak /\
  returns (parseDiffForFile diff_a_ts_bak "a.ts")
          (Some {| original := "old backup"; modified := "new backup" |}) /\
  returns (parseDiffWithColors diff_a_ts_bak "a.ts")
          (Some {| content := "@@ -1 +1 @@
old backup
new backup";
                   decorations := [hunk_header_decoration 1;
                                   deleted_decoration 2;
                                   added_decoration 3] |}) /\
  returns (parseDiffForFile diff_bak_then_ts "a.ts")
          (Some {| original := "old backup
"; modified := "new backup
" |}).
Proof.
  split.
  { intros p ext rest H; apply extract_None_iff in H; apply H.
    exists [], (lit "diff --git a/x b/" ++ p), (ext ++ rest).
    split; [now rewrite <- !app_assoc|].
    exists (lit "x"); repeat split; discriminate. }
  split; [vm_compute; reflexivity|].
  split; [|split].
  - eapply returns_eq; [apply parseDiffForFile_returns|vm_compute; reflexivity].
  - eapply returns_eq;
      [apply parseDiffWithColors_returns|vm_compute; reflexivity].
  - eapply returns_eq; [apply parseDiffForFile_returns|vm_compute; reflexivity].
Qed.

(** *** C8 *)

(** C8: each parser returns a value that is a function of its two arguments
    alone and leaves the console as it found it; so two calls with the same
    arguments, whatever the state they run in, return the same value. *)
Theorem C8_deterministic_and_pure (rawDiff filePath : str) :
  returns (parseDiffForFile rawDiff filePath) (sides_value rawDiff filePath) /\
  returns (parseDiffWithColors rawDiff filePath)
          (render_value rawDiff filePath) /\
  forall w1 w2 : console,
    fst (parseDiffForFile rawDiff filePath w1) =
    fst (parseDiffForFile rawDiff filePath w2) /\
    fst (parseDiffWithColors rawDiff filePath w1) =
    fst (parseDiffWithColors rawDiff filePath w2) /\
    snd (parseDiffForFile rawDiff filePath w1) = w1 /\
    snd (parseDiffWithColors rawDiff filePath w1) = w1.
Proof.
  pose proof (parseDiffForFile_returns rawDiff filePath) as Hf.
  pose proof (parseDiffWithColors_returns rawDiff filePath) as Hc.
  repeat split; auto; now rewrite ?Hf, ?Hc.
Qed.

(** *** C9 *)

(** C9: with an empty diff or an empty path both parsers return null; the
    guard comes first, so this is so even when the diff has a header that the
    pattern for the empty path would match. *)
Theorem C9_empty_arguments :
  (forall filePath,
     returns (parseDiffForFile [] filePath) None /\
     returns (parseDiffWithColors [] filePath) None) /\
  (forall rawDiff,
     returns (parseDiffForFile rawDiff []) None /\
     returns (parseDiffWithColors rawDiff []) None) /\
  extract diff_a_ts [] = Some diff_a_ts.
Proof.
  split; [|split].
  - intros p; split; intros w; reflexivity.
  - intros d; split; intros w;
      unfold parseDiffForFile, parseDiffWithColors; simpl;
      now rewrite orb_true_r.
  - vm_compute; reflexivity.
Qed.

(** *** C3 *)

Lemma names_path_exec (fullDiff filePath : str) :
  names_path fullDiff filePath ->
  exec (delimitedPattern filePath) fullDiff <> None.
Proof.
  intros (pre & h & post & -> & (old & -> & Hne & Hold) & Hend).
  destruct old as [|a w]; [contradiction|].
  simpl in Hold; apply andb_true_iff in Hold as [Ha Hw].
  eapply exec_complete with (c := []) (c' := []) (s' := post).
  unfold delimitedPattern, Plus; rewrite <- !app_assoc.
  eapply M_Seq; [apply M_Str|].
  eapply M_Seq; [eapply M_Seq; [apply M_Class; exact Ha|]|].
  { apply M_Star with (w := w); exact Hw. }
  eapply M_Seq; [apply M_Str|].
  eapply M_Seq; [apply M_Str|].
  destruct post as [|c post]; simpl in Hend.
  - eapply M_Look; apply M_AltR; constructor.
  - eapply M_Look; apply M_AltL; apply M_Class; exact Hend.
Qed.

(** C3 (the parts that hold, and the input where the claim fails): the
    [try] blocks of both parsers complete normally on every input, and the
    parsers are their bodies at the pattern constructor of the source; with
    a pattern constructor that throws, the [catch] clause of
    [parseDiffWithColors] logs and returns the single explanatory line with
    no annotations, and the one of [parseDiffForFile] logs and returns null;
    both parsers return null when the text
    [diff --git a/<old> b/<filePath>] occurs nowhere in the diff, as for
    [garbage input ###].  But no header of the diff need name the path for a
    section to be returned: in the diff with the one section of [a.ts.bak]
    no header names [a.ts], and both parsers return that section for
    [a.ts]. *)
Theorem C3_not_found_and_catch :
  (forall rawDiff filePath,
     (exists v, parseDiffForFile_try rawDiff filePath = Normal v) /\
     (exists v, parseDiffWithColors_try rawDiff filePath = Normal v) /\
     parseDiffForFile rawDiff filePath =
       parseDiffForFile_with new_filePattern rawDiff filePath /\
     parseDiffWithColors rawDiff filePath =
       parseDiffWithColors_with new_filePattern rawDiff filePath) /\
  (forall newRegExp rawDiff filePath e w,
     rawDiff <> [] -> filePath <> [] ->
     newRegExp (escapeRegExp filePath) = Throw e ->
     parseDiffWithColors_with newRegExp rawDiff filePath w =
       (Some {| content :=
                  "Error parsing diff. The diff format may be unsupported.";
                decorations := [] |},
        w ++ [(lit "Error parsing diff:", e)]) /\
     parseDiffForFile_with newRegExp rawDiff filePath w =
       (None, w ++ [(lit "Error parsing diff:", e)])) /\
  (forall rawDiff filePath,
     ~ has_file_header rawDiff filePath ->
     returns (parseDiffForFile rawDiff filePath) None /\
     returns (parseDiffWithColors rawDiff filePath) None) /\
  (returns (parseDiffForFile "garbage input ###" "test.txt") None /\
   returns (parseDiffWithColors "garbage input ###" "test.txt") None) /\
  (~ names_path diff_a_ts_bak "a.ts" /\
   returns (parseDiffForFile diff_a_ts_bak "a.ts")
           (Some {| original := "old backup"; modified := "new backup" |}) /\
   returns (parseDiffWithColors diff_a_ts_bak "a.ts")
           (Some {| content := "@@ -1 +1 @@
old backup
new backup";
                    decorations := [hunk_header_decoration 1;
                                    deleted_decoration 2;
                                    added_decoration 3] |})).
Proof.
  split.
  { intros d p.
    split; [rewrite parseDiffForFile_try_normal; eauto|].
    split; [rewrite parseDiffWithColors_try_normal; eauto|].
    split; reflexivity. }
  split.
  { intros newRegExp d p e w Hd Hp He.
    unfold parseDiffWithColors_with, parseDiffForFile_with,
      matchFileDiff_with.
    rewrite He.
    destruct d; [contradiction|]; destruct p; [contradiction|].
    split; reflexivity. }
  split.
  { intros d p Hno; apply extract_None_iff in Hno; split.
    - eapply returns_eq; [apply parseDiffForFile_returns|].
      unfold sides_value; rewrite Hno; now destruct (_ || _).
    - eapply returns_eq; [apply parseDiffWithColors_returns|].
      unfold render_value; rewrite Hno; now destruct (_ || _). }
  split.
  { split.
    - eapply returns_eq; [apply parseDiffForFile_returns|reflexivity].
    - eapply returns_eq; [apply parseDiffWithColors_returns|reflexivity]. }
  split.
  { intros H; apply names_path_exec in H; apply H; vm_compute; reflexivity. }
  split.
  - eapply returns_eq; [apply parseDiffForFile_returns|vm_compute; reflexivity].
  - eapply returns_eq;
      [apply parseDiffWithColors_returns|vm_compute; reflexivity].
Qed.

Lemma C3_not_found_and_catch_witness :
  parseDiffWithColors_with throwing_RegExp "garbage input ###" "test.txt" [] =
    (Some error_result, [(lit "Error parsing diff:", SyntaxError)]) /\
  (~ has_file_header "this is not a valid diff" "test.txt" /\
   returns (parseDiffForFile "this is not a valid diff" "test.txt") None /\
   returns (parseDiffWithColors "this is not a valid diff" "test.txt") None).
Proof.
  split.
  - apply (proj1 (proj2 C3_not_found_and_catch) throwing_RegExp
             (lit "garbage input ###") (lit "test.txt") SyntaxError []);
      [discriminate|discriminate|reflexivity].
  - assert (H : ~ has_file_header "this is not a valid diff" "test.txt")
      by (apply extract_None_iff; reflexivity).
    split; [exact H|].
    exact (proj1 (proj2 (proj2 C3_not_found_and_catch))
             (lit "this is not a valid diff") (lit "test.txt") H).
Defined.

(** *** C4 *)

(** C4: when the matched section contains [Binary files], the renderer
    returns the fixed binary line with no annotations, whatever else the
    section holds; when it contains [deleted file mode] and not
    [Binary files], it returns the fixed deletion line with no annotations. *)
Theorem C4_binary_and_deleted (rawDiff filePath fileDiff : str) :
  falsy filePath = false ->
  extract rawDiff filePath = Some fileDiff ->
  (contains fileDiff "Binary files" ->
   returns (parseDiffWithColors rawDiff filePath)
           (Some {| content := "Binary file - no preview available";
                    decorations := [] |})) /\
  (contains fileDiff "deleted file mode" ->
   ~ contains fileDiff "Binary files" ->
   returns (parseDiffWithColors rawDiff filePath)
           (Some {| content := "File was deleted in this PR";
                    decorations := [] |})).
Proof.
  intros Hp He; split.
  - intros Hb; apply includes_iff in Hb.
    eapply returns_eq; [apply parseDiffWithColors_returns|].
    erewrite render_value_extract by eassumption; unfold render_fileDiff.
    now rewrite Hb.
  - intros Hd Hb; apply includes_iff in Hd; apply includes_false_iff in Hb.
    eapply returns_eq; [apply parseDiffWithColors_returns|].
    erewrite render_value_extract by eassumption; unfold render_fileDiff.
    now rewrite Hb, Hd.
Qed.

Lemma C4_binary_and_deleted_witness :
  returns (parseDiffWithColors diff_binary_deleted "image.png")
          (Some binary_result) /\
  returns (parseDiffWithColors diff_deleted "deleted.txt")
          (Some deleted_result).
Proof.
  split.
  - apply (proj1 (@C4_binary_and_deleted diff_binary_deleted "image.png"
                    diff_binary_deleted eq_refl eq_refl)).
    apply includes_iff; reflexivity.
  - apply (proj2 (@C4_binary_and_deleted diff_deleted "deleted.txt"
                    diff_deleted eq_refl eq_refl)).
    + apply includes_iff; reflexivity.
    + apply includes_false_iff; reflexivity.
Defined.

(** *** C7 *)

Lemma displayed_false_head (lines : list str) (l : str) (rest : list str) :
  displayed false lines = l :: rest -> startsWith l "@@" = true.
Proof.
  induction lines as [|x lines IH]; simpl; [discriminate|].
  destruct (is_metadata x); [exact IH|].
  destruct (startsWith x "@@") eqn:E; [|exact IH].
  intros H; inv H; exact E.
Qed.

Lemma displayed_no_header (lines : list str) :
  Forall (fun l => startsWith l "@@" = false) lines ->
  displayed false lines = [].
Proof.
  induction 1 as [|x lines Hx _ IH]; simpl; [reflexivity|].
  rewrite Hx; now destruct (is_metadata x).
Qed.

Lemma join_lines_nil (x : str) (rest : list str) :
  join_lines (x :: rest) = [] -> x = [].
Proof.
  simpl; destruct rest; [auto|].
  destruct x; [reflexivity|discriminate].
Qed.

Lemma banner_lines_head (fileDiff : str) :
  banner_lines fileDiff = [] \/
  exists b rest, banner_lines fileDiff = b :: rest /\ b <> [].
Proof.
  unfold banner_lines.
  destruct (exec renameRegex fileDiff).
  - right; eexists _, _; split; [reflexivity|discriminate].
  - destruct (includes fileDiff "new file mode"); [|now left].
    right; eexists _, _; split; [reflexivity|discriminate].
Qed.

Lemma render_fileDiff_nonempty (fileDiff : str) :
  content (render_fileDiff fileDiff) <> [].
Proof.
  unfold render_fileDiff.
  destruct (includes fileDiff "Binary files"); [discriminate|].
  destruct (includes fileDiff "deleted file mode"); [discriminate|].
  destruct (render_loop_eq fileDiff) as (Hc & _ & _).
  destruct (Nat.eqb_spec (length (contentLines (render_loop fileDiff))) 0)
    as [|Hne]; [discriminate|].
  cbn [content]; rewrite Hc in *.
  destruct (banner_lines_head fileDiff) as [Hb|(b & rest & Hb & Hnb)];
    rewrite Hb in *; simpl in *.
  - unfold source_lines in *.
    destruct (displayed false (split_lines fileDiff)) as [|l src] eqn:E;
      [contradiction|].
    apply displayed_false_head in E.
    intros H; apply join_lines_nil in H.
    unfold display_text, line_origin in H; rewrite E in H; subst l.
    discriminate E.
  - intros H; apply join_lines_nil in H; contradiction.
Qed.

(** C7: for a matched section that is neither binary nor deleted, an empty
    display buffer after the loop makes the renderer return the single line
    [No changes to display] with no annotations; the buffer is empty when
    there is no banner and no line starts with [@@]; and the text returned is
    never empty. *)
Theorem C7_empty_buffer_placeholder (rawDiff filePath fileDiff : str) :
  falsy filePath = false ->
  extract rawDiff filePath = Some fileDiff ->
  ~ contains fileDiff "Binary files" ->
  ~ contains fileDiff "deleted file mode" ->
  (contentLines (render_loop fileDiff) = [] ->
   returns (parseDiffWithColors rawDiff filePath)
           (Some {| content := "No changes to display";
                    decorations := [] |})) /\
  (banner_lines fileDiff = [] ->
   Forall (fun l => startsWith l "@@" = false) (split_lines fileDiff) ->
   contentLines (render_loop fileDiff) = []) /\
  (forall r, returns (parseDiffWithColors rawDiff filePath) (Some r) ->
             content r <> []).
Proof.
  intros Hp He Hb Hd.
  apply includes_false_iff in Hb, Hd.
  split; [|split].
  - intros Hc.
    eapply returns_eq; [apply parseDiffWithColors_returns|].
    erewrite render_value_extract by eassumption.
    unfold render_fileDiff; now rewrite Hb, Hd, Hc.
  - intros Hban Hlines.
    destruct (render_loop_eq fileDiff) as (Hc & _ & _).
    rewrite Hc, Hban; unfold source_lines.
    now rewrite displayed_no_header.
  - intros r Hr; apply render_returns_inv in Hr.
    erewrite render_value_extract in Hr by eassumption.
    inv Hr; apply render_fileDiff_nonempty.
Qed.

Lemma C7_empty_buffer_placeholder_witness :
  returns (parseDiffWithColors diff_empty "empty.txt")
          (Some no_changes_result).
Proof.
  assert (Hb : ~ contains diff_empty "Binary files")
    by (apply includes_false_iff; reflexivity).
  assert (Hd : ~ contains diff_empty "deleted file mode")
    by (apply includes_false_iff; reflexivity).
  apply (proj1 (@C7_empty_buffer_placeholder diff_empty "empty.txt" diff_empty
                  eq_refl eq_refl Hb Hd)).
  reflexivity.
Defined.

(** *** C2 *)

(** C2: when the renderer returns something other than one of its fixed
    lines, the display buffer is the banner followed by the text of the
    displayed source lines of the section; there are as many added, deleted
    and hunk-header annotations as displayed lines of that origin, and no
    other annotation; the display line of the [i]-th displayed source line
    is covered by exactly the annotation of its origin (none for a context
    line), the banner lines by none; every annotation spans one line, and
    each lies strictly before the next. *)
Theorem C2_annotations_match_lines (rawDiff filePath : str) (r : rendered) :
  returns (parseDiffWithColors rawDiff filePath) (Some r) ->
  r <> binary_result -> r <> deleted_result ->
  r <> no_changes_result -> r <> error_result ->
  exists fileDiff,
    extract rawDiff filePath = Some fileDiff /\
    let banner := banner_lines fileDiff in
    let src := source_lines fileDiff in
    let off := length banner in
    content r = join_lines (banner ++ map display_text src) /\
    count_category Added (decorations r) = count_origin Added src /\
    count_category Deleted (decorations r) = count_origin Deleted src /\
    count_category HunkHeader (decorations r) = count_origin HunkHeader src /\
    length (decorations r) =
      count_origin HunkHeader src + count_origin Deleted src +
      count_origin Added src /\
    (forall i line,
       nth_error src i = Some line ->
       annotations_at (off + i + 1) (decorations r) =
       match line_origin line with
       | HunkHeader => [hunk_header_decoration (off + i + 1)]
       | Deleted => [deleted_decoration (off + i + 1)]
       | Added => [added_decoration (off + i + 1)]
       | Context => []
       end) /\
    (forall n, n <= off -> annotations_at n (decorations r) = []) /\
    Forall one_line (decorations r) /\
    ForallOrdPairs before (decorations r).
Proof.
  intros Hr Hnb Hnd Hnn _.
  apply render_returns_inv in Hr; symmetry in Hr.
  apply render_value_inv in Hr as (fileDiff & Hp & He & ->).
  exists fileDiff; split; [exact He|].
  unfold render_fileDiff in *.
  destruct (includes fileDiff "Binary files"); [contradiction|].
  destruct (includes fileDiff "deleted file mode"); [contradiction|].
  destruct (Nat.eqb (length (contentLines (render_loop fileDiff))) 0);
    [contradiction|].
  destruct (render_loop_eq fileDiff) as (Hc & Hds & _).
  cbv zeta; cbn [content decorations]; rewrite Hc, Hds.
  split; [reflexivity|].
  split; [apply count_category_from; discriminate|].
  split; [apply count_category_from; discriminate|].
  split; [apply count_category_from; discriminate|].
  split; [apply annotations_from_length|].
  split; [intros i line Hi; rewrite (annotations_at_line _ _ _ Hi);
          now destruct (line_origin line)|].
  split; [intros n Hn; apply annotations_at_outside; now left|].
  split; [|apply annotations_from_ordered].
  eapply Forall_impl; [|apply annotations_from_range]; now intros d (_ & H & _).
Qed.

Lemma C2_annotations_match_lines_witness :
  returns (parseDiffWithColors diff_test_txt "test.txt")
          (Some rendered_test_txt) /\
  count_category Added (decorations rendered_test_txt) = 2 /\
  annotations_at 2 (decorations rendered_test_txt) = [].
Proof.
  assert (Hr : returns (parseDiffWithColors diff_test_txt "test.txt")
                       (Some rendered_test_txt))
    by (eapply returns_eq; [apply parseDiffWithColors_returns|reflexivity]).
  split; [exact Hr|].
  destruct (@C2_annotations_match_lines diff_test_txt "test.txt"
              rendered_test_txt Hr)
    as (f & He & _ & Ha & _ & _ & _ & Hat & _); try discriminate.
  inv He; split.
  - rewrite Ha; reflexivity.
  - apply (Hat 1 (lit " existing line")); reflexivity.
Defined.

(** *** C6 *)

Lemma annotations_at_added (src : list str) (off i : nat) (line : str) :
  nth_error src i = Some line -> line_origin line = Added ->
  annotations_at (off + i + 1) (annotations_from off src) =
  [added_decoration (off + i + 1)].
Proof.
  intros Hi Ho; rewrite (annotations_at_line _ _ _ Hi), Ho; reflexivity.
Qed.

(** C6 (amended): for a matched section that contains neither
    [Binary files] nor [deleted file mode], the renderer returns a result
    such that: when [rename from old], one line feed and [rename to new]
    occur in the section, with [old] and [new] non-empty and without line
    terminator (LF, CR, U+2028, U+2029), [new] running to a line terminator
    or to the end, and this is the first such occurrence, the display buffer
    is the line naming [old] and [new], an empty line, and then the
    displayed lines of the hunks, and the [i]-th of these lines, when it is
    an addition, is covered by exactly the added annotation at display line
    [i + 3]; and when no such text occurs in the section and it contains
    [new file mode], the buffer is [// New file], an empty line, and the
    displayed lines of the hunks, with the same annotation of the additions,
    and as many deleted annotations as displayed deletion lines. *)
Theorem C6_rename_and_new_file_banners (rawDiff filePath fileDiff : str) :
  falsy filePath = false ->
  extract rawDiff filePath = Some fileDiff ->
  ~ contains fileDiff "Binary files" ->
  ~ contains fileDiff "deleted file mode" ->
  let src := source_lines fileDiff in
  exists r,
    returns (parseDiffWithColors rawDiff filePath) (Some r) /\
    (forall old new,
       first_rename fileDiff old new ->
       content r =
         join_lines (rename_line old new :: lit "" :: map display_text src) /\
       forall i line,
         nth_error src i = Some line -> line_origin line = Added ->
         annotations_at (i + 3) (decorations r) = [added_decoration (i + 3)]) /\
    (~ has_rename_markers fileDiff ->
     contains fileDiff "new file mode" ->
     content r =
       join_lines (lit "// New file" :: lit "" :: map display_text src) /\
     (forall i line,
        nth_error src i = Some line -> line_origin line = Added ->
        annotations_at (i + 3) (decorations r) = [added_decoration (i + 3)]) /\
     count_category Deleted (decorations r) = count_origin Deleted src).
Proof.
  intros Hp He Hb Hd src.
  apply includes_false_iff in Hb, Hd.
  exists (render_fileDiff fileDiff); split.
  { eapply returns_eq; [apply parseDiffWithColors_returns|].
    now apply render_value_extract. }
  destruct (render_loop_eq fileDiff) as (Hc & Hds & _).
  unfold render_fileDiff; rewrite Hb, Hd, Hc, Hds; fold src.
  split.
  - intros old new Hf; rewrite (banner_lines_rename Hf).
    cbn [length app Nat.eqb content decorations]; split; [reflexivity|].
    intros i line Hi Ho.
    replace (i + 3) with (2 + i + 1) by lia.
    now apply annotations_at_added with (line := line).
  - intros Hno Hnew; rewrite (banner_lines_new Hno Hnew).
    cbn [length app Nat.eqb content decorations]; split; [reflexivity|].
    split; [|apply count_category_from; discriminate].
    intros i line Hi Ho.
    replace (i + 3) with (2 + i + 1) by lia.
    now apply annotations_at_added with (line := line).
Qed.

Lemma first_rename_exec fileDiff mr old new :
  exec renameRegex fileDiff = Some mr ->
  groups mr = [(2, new); (1, old)] ->
  first_rename fileDiff old new.
Proof.
  intros E Hg; apply rename_exec_Some in E as (old' & new' & Hf & Hg').
  rewrite Hg in Hg'; now inv Hg'.
Qed.

Lemma no_rename_markers_exec fileDiff :
  exec renameRegex fileDiff = None -> ~ has_rename_markers fileDiff.
Proof. intros E H; now apply has_rename_markers_exec in H. Qed.

Lemma C6_rename_and_new_file_banners_witness :
  (exists r,
     returns (parseDiffWithColors diff_renamed "new-name.txt") (Some r) /\
     content r =
       lit "// File renamed: old-name.txt " ++ arrow ++ lit " new-name.txt

@@ -1,1 +1,1 @@
content
more content" /\
     annotations_at 5 (decorations r) = [added_decoration 5]) /\
  (exists r,
     returns (parseDiffWithColors diff_new_file "new-file.txt") (Some r) /\
     content r = lit "// New file

@@ -0,0 +1,3 @@
line 1
line 2
line 3" /\
     annotations_at 4 (decorations r) = [added_decoration 4] /\
     count_category Deleted (decorations r) = 0).
Proof.
  split.
  - assert (Hb : ~ contains diff_renamed "Binary files")
      by (apply includes_false_iff; reflexivity).
    assert (Hd : ~ contains diff_renamed "deleted file mode")
      by (apply includes_false_iff; reflexivity).
    assert (Hf : first_rename diff_renamed "old-name.txt" "new-name.txt")
      by (eapply first_rename_exec; reflexivity).
    destruct (@C6_rename_and_new_file_banners diff_renamed "new-name.txt"
                diff_renamed eq_refl eq_refl Hb Hd) as (r & Hr & Hren & _).
    destruct (Hren _ _ Hf) as [Hc Ha].
    exists r; split; [exact Hr|]; split.
    + rewrite Hc; reflexivity.
    + apply (Ha 2 (lit "+more content")); reflexivity.
  - assert (Hb : ~ contains diff_new_file "Binary files")
      by (apply includes_false_iff; reflexivity).
    assert (Hd : ~ contains diff_new_file "deleted file mode")
      by (apply includes_false_iff; reflexivity).
    assert (Hno : ~ has_rename_markers diff_new_file)
      by (apply no_rename_markers_exec; reflexivity).
    assert (Hnew : contains diff_new_file "new file mode")
      by (apply includes_iff; reflexivity).
    destruct (@C6_rename_and_new_file_banners diff_new_file "new-file.txt"
                diff_new_file eq_refl eq_refl Hb Hd) as (r & Hr & _ & Hn).
    destruct (Hn Hno Hnew) as (Hc & Ha & Hdel).
    exists r; split; [exact Hr|]; split; [|split].
    + rewrite Hc; reflexivity.
    + apply (Ha 1 (lit "+line 1")); reflexivity.
    + rewrite Hdel; reflexivity.
Defined.

(** C6 fails as stated: a renamed section with [Binary files] in it gets
    the binary line and no banner, and so does a new binary file; a new-file
    section with a deletion line in its hunk gets a deleted annotation;
    marker lines that are not next to each other give no banner; and neither
    do marker lines that end in CR LF, where the hunk starts at display
    line 1 and the addition is annotated at line 3. *)
Lemma C6_counterexample :
  (extract diff_renamed_binary "new.png" = Some diff_renamed_binary /\
   first_rename diff_renamed_binary "old.png" "new.png" /\
   returns (parseDiffWithColors diff_renamed_binary "new.png")
           (Some binary_result)) /\
  (extract diff_new_binary "logo.png" = Some diff_new_binary /\
   contains diff_new_binary "new file mode" /\
   ~ has_rename_markers diff_new_binary /\
   returns (parseDiffWithColors diff_new_binary "logo.png")
           (Some binary_result)) /\
  (extract diff_new_with_deletion "new-file.txt" = Some diff_new_with_deletion /\
   contains diff_new_with_deletion "new file mode" /\
   ~ has_rename_markers diff_new_with_deletion /\
   returns (parseDiffWithColors diff_new_with_deletion "new-file.txt")
           (Some {| content := "// New file

@@ -0,0 +1,1 @@
line 1
line 0";
                    decorations := [hunk_header_decoration 3;
                                    added_decoration 4;
                                    deleted_decoration 5] |})) /\
  (extract diff_markers_apart "new.txt" = Some diff_markers_apart /\
   contains diff_markers_apart "rename from old.txt" /\
   contains diff_markers_apart "rename to new.txt" /\
   returns (parseDiffWithColors diff_markers_apart "new.txt")
           (Some {| content := "@@ -1,1 +1,1 @@
more";
                    decorations := [hunk_header_decoration 1;
                                    added_decoration 2] |})) /\
  (extract diff_renamed_crlf "new-name.txt" = Some diff_renamed_crlf /\
   contains diff_renamed_crlf "rename from old-name.txt" /\
   contains diff_renamed_crlf "rename to new-name.txt" /\
   ~ has_rename_markers diff_renamed_crlf /\
   returns (parseDiffWithColors diff_renamed_crlf "new-name.txt")
           (Some {| content := with_crlf "@@ -1,1 +1,1 @@
content
more content";
                    decorations := [hunk_header_decoration 1;
                                    added_decoration 3] |})).
Proof.
  repeat split;
    try (apply includes_iff; reflexivity);
    try (apply no_rename_markers_exec; reflexivity);
    try (eapply first_rename_exec; reflexivity);
    try (eapply returns_eq; [apply parseDiffWithColors_returns|reflexivity]).
Qed.

(** *** C10 *)

(** C10: there are sections with a well-formed hunk in which
    [deleted file mode] (resp. [Binary files]) occurs only in an added line
    of the hunk body, and for which the renderer returns the deletion (resp.
    binary) line with no annotations, although the loop would have displayed
    and annotated the hunk. *)
Theorem C10_markers_found_anywhere :
  (exists fileDiff line,
     extract diff_mentions_deleted "notes.md" = Some fileDiff /\
     only_in_hunk_body "deleted file mode" fileDiff line /\
     parseDiffHunk (nth 4 (split_lines fileDiff) []) =
       Some {| startLine := Exact 1; lineCount := Exact 2 |} /\
     decos (render_loop fileDiff) =
       [hunk_header_decoration 1; added_decoration 3] /\
     returns (parseDiffWithColors diff_mentions_deleted "notes.md")
             (Some {| content := "File was deleted in this PR";
                      decorations := [] |})) /\
  (exists fileDiff line,
     extract diff_mentions_binary "notes.md" = Some fileDiff /\
     only_in_hunk_body "Binary files" fileDiff line /\
     parseDiffHunk (nth 4 (split_lines fileDiff) []) =
       Some {| startLine := Exact 1; lineCount := Exact 2 |} /\
     decos (render_loop fileDiff) =
       [hunk_header_decoration 1; added_decoration 3] /\
     returns (parseDiffWithColors diff_mentions_binary "notes.md")
             (Some {| content := "Binary file - no preview available";
                      decorations := [] |})).
Proof.
  split.
  - exists diff_mentions_deleted, (lit "+It prints deleted file mode 100644").
    split; [reflexivity|].
    split; [split; [reflexivity|split; [|discriminate]]|].
    { vm_compute; auto. }
    split; [reflexivity|]; split; [reflexivity|].
    eapply returns_eq; [apply parseDiffWithColors_returns|reflexivity].
  - exists diff_mentions_binary,
      (lit "+Binary files a/x.png and b/x.png differ").
    split; [reflexivity|].
    split; [split; [reflexivity|split; [|discriminate]]|].
    { vm_compute; auto. }
    split; [reflexivity|]; split; [reflexivity|].
    eapply returns_eq; [apply parseDiffWithColors_returns|reflexivity].
Qed.

(** *** C5 *)

(** C5: the lookup returns null exactly when no text of the hunk-header
    grammar occurs in its argument; otherwise it returns the range read off
    the leftmost such text, whatever comes before and after it: the number
    [newStart] denotes, and the number [newCount] denotes, or 1 without
    [newCount]. *)
Theorem C5_hunk_range_lookup (s : str) :
  (parseDiffHunk s = None <-> ~ has_hunk_header s) /\
  (forall pre h post newStart newCount,
     s = pre ++ h ++ post ->
     hunk_header h newStart newCount ->
     (forall pre' h' post' newStart' newCount',
        s = pre' ++ h' ++ post' -> hunk_header h' newStart' newCount' ->
        length pre <= length pre') ->
     parseDiffHunk s =
     Some {| startLine := to_number (decimal newStart);
             lineCount := match newCount with
                          | Some d => to_number (decimal d)
                          | None => Exact 1
                          end |}) /\
  parseDiffHunk "@@ -40,7 +40,8 @@" =
    Some {| startLine := Exact 40; lineCount := Exact 8 |} /\
  parseDiffHunk "@@ -1 +1 @@" =
    Some {| startLine := Exact 1; lineCount := Exact 1 |} /\
  parseDiffHunk "@@ -40,7 +40,8 @@ function render() {" =
    Some {| startLine := Exact 40; lineCount := Exact 8 |} /\
  parseDiffHunk "not a hunk header" = None.
Proof.
  split; [apply parseDiffHunk_None_iff|].
  split; [|repeat split].
  intros pre h post ns nc Hs Hh Hmin.
  destruct (parseDiffHunk s) as [r|] eqn:E.
  - apply parseDiffHunk_Some in E
      as (pre0 & h0 & post0 & ns0 & nc0 & Hs0 & Hh0 & -> & Hmin0).
    pose proof (Hmin _ _ _ _ _ Hs0 Hh0) as H1.
    pose proof (Hmin0 _ _ _ _ _ Hs Hh) as H2.
    rewrite Hs in Hs0.
    apply same_length_prefix in Hs0 as [_ Hs0]; [|lia].
    now destruct (hunk_header_unique _ _ Hh Hh0 Hs0) as [-> ->].
  - apply parseDiffHunk_None_iff in E.
    exfalso; apply E; now exists pre, h, post, ns, nc.
Qed.

Lemma C5_hunk_range_lookup_witness :
  hunk_header "@@ -12,3 +15 @@" "15" None /\
  parseDiffHunk "@@ -12,3 +15 @@ int main(void)" =
    Some {| startLine := Exact 15; lineCount := Exact 1 |}.
Proof.
  assert (Hh : hunk_header "@@ -12,3 +15 @@" "15" None).
  { exists (lit "12"), (lit ",3"), (Some (lit "3")), [].
    split; [reflexivity|].
    split; [split; [discriminate|reflexivity]|].
    split; [right; exists (lit "3"); repeat split; discriminate|].
    split; [split; [discriminate|reflexivity]|].
    now left. }
  split; [exact Hh|].
  apply (proj1 (proj2 (C5_hunk_range_lookup "@@ -12,3 +15 @@ int main(void)"))
           [] (lit "@@ -12,3 +15 @@") (lit " int main(void)") (lit "15") None
           eq_refl Hh).
  intros; simpl; lia.
Defined.

End Claims.

(** * Further properties of the two parsers *)

Section SectionBounds.








End SectionBounds.

Section BufferAndAnnotations.

Lemma split_from_app_no_LF (x : str) : forall cur s,
  ~ In LF x -> split_from cur (x ++ s) = split_from (cur ++ x) s.
Proof.
  induction x as [|c x IH]; intros cur s Hx; simpl.
  - now rewrite app_nil_r.
  - destruct (N.eqb_spec c LF) as [->|Hc]; [exfalso; apply Hx; now left|].
    rewrite IH by (intros H; apply Hx; now right).
    now rewrite <- app_assoc.
Qed.

(** Lines without a line feed, joined and split again, come back as they
    were. *)
Lemma split_join (l : list str) :
  l <> [] -> Forall (fun x => ~ In LF x) l -> split_lines (join_lines l) = l.
Proof.
  intros Hne H; induction H as [|x l Hx Hl IH]; [contradiction|].
  destruct l as [|y l].
  - unfold split_lines; simpl join_lines.
    rewrite <- (app_nil_r x) at 1.
    rewrite split_from_app_no_LF by assumption.
    reflexivity.
  - unfold split_lines in *; cbn [join_lines].
    rewrite split_from_app_no_LF by assumption.
    cbn [split_from app]; rewrite N.eqb_refl.
    f_equal; apply IH; discriminate.
Qed.

Lemma no_LF_by_forallb (l : str) :
  forallb (fun c => negb (N.eqb c LF)) l = true -> ~ In LF l.
Proof.
  intros H Hin; rewrite forallb_forall in H; specialize (H _ Hin).
  now rewrite N.eqb_refl in H.
Qed.

Lemma no_LF_app (a b : str) : ~ In LF a -> ~ In LF b -> ~ In LF (a ++ b).
Proof. intros Ha Hb H; apply in_app_or in H as [H|H]; auto. Qed.

Lemma banner_lines_no_LF (fileDiff : str) :
  Forall (fun x => ~ In LF x) (banner_lines fileDiff).
Proof.
  unfold banner_lines.
  destruct (exec renameRegex fileDiff) as [mr|] eqn:E.
  - apply rename_exec_Some in E
      as (old & new & (pre & (post & _ & [_ Ho] & [_ Hn] & _) & _) & Hg).
    unfold rename_banner; rewrite Hg; cbn [capture Nat.eqb spliced].
    apply Forall_cons; [|apply Forall_cons; [intros []|apply Forall_nil]].
    repeat apply no_LF_app; auto using dot_no_LF;
      apply no_LF_by_forallb; reflexivity.
  - destruct (includes fileDiff "new file mode"); [|apply Forall_nil].
    apply Forall_cons; [|apply Forall_cons; [intros []|apply Forall_nil]].
    apply no_LF_by_forallb; reflexivity.
Qed.

Lemma displayed_incl (lines : list str) : forall b l,
  In l (displayed b lines) -> In l lines.
Proof.
  induction lines as [|x lines IH]; intros b l; simpl; [auto|].
  destruct (is_metadata x); [eauto|].
  destruct (startsWith x "@@"); [intros [->|H]; eauto|].
  destruct b; [intros [->|H]; eauto|eauto].
Qed.

Lemma display_text_no_LF (l : str) : ~ In LF l -> ~ In LF (display_text l).
Proof.
  intros H; unfold display_text.
  assert (Ht : ~ In LF (substring1 l))
    by (destruct l; simpl; auto; intros Hin; apply H; now right).
  destruct (line_origin l); auto; destruct (startsWith l " "); auto.
Qed.

Lemma contentLines_no_LF (fileDiff : str) :
  Forall (fun x => ~ In LF x) (contentLines (render_loop fileDiff)).
Proof.
  destruct (render_loop_eq fileDiff) as (-> & _ & _).
  apply Forall_app; split; [apply banner_lines_no_LF|].
  apply Forall_forall; intros x Hx; apply in_map_iff in Hx as (l & <- & Hl).
  apply display_text_no_LF.
  apply displayed_incl in Hl.
  pose proof (split_lines_no_LF fileDiff) as H.
  rewrite Forall_forall in H; auto.
Qed.

(** The lines of the returned text are the display buffer, and every
    annotation lies on one of them. *)
Theorem decorations_within_content (rawDiff filePath : str) (r : rendered) :
  returns (parseDiffWithColors rawDiff filePath) (Some r) ->
  Forall (fun d => 1 <= startLineNumber (range d) /\
                   endLineNumber (range d) <= length (split_lines (content r)))
         (decorations r).
Proof.
  intros Hr; apply render_returns_inv in Hr; symmetry in Hr.
  apply render_value_inv in Hr as (fileDiff & _ & _ & ->).
  unfold render_fileDiff.
  destruct (includes fileDiff "Binary files"); [constructor|].
  destruct (includes fileDiff "deleted file mode"); [constructor|].
  destruct (Nat.eqb_spec (length (contentLines (render_loop fileDiff))) 0)
    as [|Hne]; [constructor|].
  cbn [content decorations].
  rewrite split_join;
    [|destruct (contentLines _); [contradiction|discriminate]
     |apply contentLines_no_LF].
  destruct (render_loop_eq fileDiff) as (Hc & -> & _).
  rewrite Hc, length_app, length_map.
  eapply Forall_impl; [|apply annotations_from_range].
  intros d (H1 & H2 & H3); unfold one_line in H2; lia.
Qed.

Lemma decorations_within_content_witness :
  Forall (fun d => 1 <= startLineNumber (range d) /\
                   endLineNumber (range d) <= 5)
         (decorations rendered_test_txt).
Proof.
  apply (@decorations_within_content diff_test_txt "test.txt"
           rendered_test_txt).
  eapply returns_eq; [apply parseDiffWithColors_returns|reflexivity].
Defined.

End BufferAndAnnotations.

Section NotFound.

Lemma returns_value_iff {A} (c : IO A) (v a : A) :
  returns c v -> (returns c a <-> v = a).
Proof.
  intros Hv; split; [intros Ha; eapply returns_inj; eassumption|].
  now intros <-.
Qed.


(** In the branch that builds the buffer, the result is none of the two
    fixed lines for binary and deleted files. *)
Lemma render_loop_result_not_fixed (fileDiff : str) (r : rendered) :
  r = (let st := render_loop fileDiff in
       if Nat.eqb (length (contentLines st)) 0 then no_changes_result
       else {| content := join_lines (contentLines st);
               decorations := decos st |}) ->
  r <> binary_result /\ r <> deleted_result.
Proof.
  cbv zeta; intros ->.
  destruct (Nat.eqb_spec (length (contentLines (render_loop fileDiff))) 0)
    as [|Hne]; [split; discriminate|].
  destruct (render_loop_eq fileDiff) as (Hc & Hd & _).
  rewrite Hc, Hd in *.
  destruct (banner_lines_head fileDiff) as [Hb|(b & rest & Hb & Hnb)];
    rewrite Hb in *; simpl in *.
  - unfold source_lines in *.
    destruct (displayed false (split_lines fileDiff)) as [|l src] eqn:E;
      [contradiction|].
    apply displayed_false_head in E.
    cbn [map annotations_from]; unfold line_origin; rewrite E.
    split; intros H; inv H.
  - unfold banner_lines in Hb.
    destruct (exec renameRegex fileDiff).
    + inv Hb; split; intros H; inv H;
        destruct rest, (map display_text (source_lines fileDiff));
        discriminate.
    + destruct (includes fileDiff "new file mode"); inv Hb.
      split; intros H; inv H;
        destruct (map display_text (source_lines fileDiff)); discriminate.
Qed.

(** [parseDiffForFile] returns null exactly when [parseDiffWithColors]
    returns null or one of its two fixed lines for binary and deleted
    files. *)
Theorem sides_null_iff_render (rawDiff filePath : str) :
  returns (parseDiffForFile rawDiff filePath) None <->
  returns (parseDiffWithColors rawDiff filePath) None \/
  returns (parseDiffWithColors rawDiff filePath) (Some binary_result) \/
  returns (parseDiffWithColors rawDiff filePath) (Some deleted_result).
Proof.
  rewrite (returns_value_iff _ (parseDiffForFile_returns rawDiff filePath)).
  rewrite !(returns_value_iff _ (parseDiffWithColors_returns rawDiff filePath)).
  unfold sides_value, render_value.
  destruct (falsy rawDiff || falsy filePath); [tauto|].
  destruct (extract rawDiff filePath) as [f|]; [|tauto].
  unfold sides_fileDiff, render_fileDiff.
  destruct (includes f "Binary files"); [tauto|].
  destruct (includes f "deleted file mode"); [tauto|].
  split; [discriminate|].
  destruct (render_loop_result_not_fixed f eq_refl) as [Hb Hd].
  intros [H|[H|H]]; inv H; exfalso; auto.
Qed.

End NotFound.

Section TwoSides.

Lemma deleted_not_added (l : str) :
  startsWith l "-" = true -> startsWith l "+" = false.
Proof.
  intros H; apply startsWith_iff in H as [r ->]; reflexivity.
Qed.

(** The loop of [parseDiffForFile], from any state: every body line goes to
    the original side unless it is an addition, and to the modified side
    unless it is a deletion. *)
Lemma sides_fold (lines : list str) : forall st,
  fold_left sides_step lines st =
  let body := sides_body (sides_inHunk st) lines in
  {| originalLines :=
       originalLines st ++
       map side_text (filter (fun l => negb (startsWith l "+")) body);
     modifiedLines :=
       modifiedLines st ++
       map side_text (filter (fun l => negb (startsWith l "-")) body);
     sides_inHunk :=
       sides_inHunk st || existsb (fun l => startsWith l "@@") lines |}.
Proof.
  induction lines as [|line lines IH]; intros [ol ml ih].
  - simpl; now rewrite !app_nil_r, orb_false_r.
  - cbn [fold_left]; rewrite IH; unfold sides_step.
    cbn [sides_body existsb originalLines modifiedLines sides_inHunk].
    destruct (startsWith line "@@") eqn:Eh.
    { cbn [originalLines modifiedLines sides_inHunk].
      now rewrite orb_true_r. }
    destruct ih; cbn [negb andb orb];
      [|cbn [originalLines modifiedLines sides_inHunk]; reflexivity].
    destruct (is_sides_metadata line);
      cbn [negb originalLines modifiedLines sides_inHunk]; [reflexivity|].
    assert (Ht : side_text line =
                 if startsWith line "-" then substring1 line
                 else if startsWith line "+" then substring1 line
                 else if startsWith line " " then substring1 line else line)
      by reflexivity.
    destruct (startsWith line "-") eqn:Ed.
    { pose proof (deleted_not_added _ Ed) as Ea.
      cbn [originalLines modifiedLines sides_inHunk filter].
      rewrite Ed, Ea; cbn [negb map]; rewrite Ht.
      now rewrite <- app_assoc. }
    destruct (startsWith line "+") eqn:Ea;
      cbn [originalLines modifiedLines sides_inHunk filter];
      rewrite ?Ed, ?Ea; cbn [negb map]; rewrite Ht;
      rewrite <- ?app_assoc; reflexivity.
Qed.

Lemma sides_body_no_header (lines : list str) :
  Forall (fun l => startsWith l "@@" = false) lines ->
  sides_body false lines = [].
Proof.
  induction 1 as [|x lines Hx _ IH]; simpl; [reflexivity|].
  now rewrite Hx.
Qed.

(** For a matched section that is neither binary nor deleted,
    [parseDiffForFile] returns as [original] the body lines that are not
    additions and as [modified] the body lines that are not deletions, each
    without its one-character marker, in the order of the section. *)
Theorem sides_of_section (rawDiff filePath fileDiff : str) :
  falsy filePath = false ->
  matchFileDiff rawDiff filePath = Normal (Some fileDiff) ->
  ~ contains fileDiff "Binary files" ->
  ~ contains fileDiff "deleted file mode" ->
  let body := sides_body false (split_lines fileDiff) in
  returns (parseDiffForFile rawDiff filePath)
    (Some {| original :=
               join_lines
                 (map side_text
                      (filter (fun l => negb (startsWith l "+")) body));
             modified :=
               join_lines
                 (map side_text
                      (filter (fun l => negb (startsWith l "-")) body)) |}).
Proof.
  intros Hp He Hb Hd body.
  rewrite matchFileDiff_extract in He; inv He.
  apply includes_false_iff in Hb, Hd.
  eapply returns_eq; [apply parseDiffForFile_returns|].
  unfold sides_value; rewrite Hp, H0.
  destruct rawDiff; [discriminate H0|]; cbn [falsy orb].
  unfold sides_fileDiff; rewrite Hb, Hd, sides_fold; reflexivity.
Qed.

Lemma sides_of_section_witness :
  returns (parseDiffForFile diff_test_txt "test.txt")
    (Some {| original := "existing line
removed line";
             modified := "existing line
added line
another added line" |}).
Proof.
  assert (Hb : ~ contains diff_test_txt "Binary files")
    by (apply includes_false_iff; reflexivity).
  assert (Hd : ~ contains diff_test_txt "deleted file mode")
    by (apply includes_false_iff; reflexivity).
  apply (@sides_of_section diff_test_txt "test.txt" diff_test_txt
           eq_refl eq_refl Hb Hd).
Defined.

(** A matched section without any hunk header (and neither binary nor
    deleted) gives two empty sides, not null. *)
Theorem sides_without_hunk (rawDiff filePath fileDiff : str) :
  falsy filePath = false ->
  matchFileDiff rawDiff filePath = Normal (Some fileDiff) ->
  ~ contains fileDiff "Binary files" ->
  ~ contains fileDiff "deleted file mode" ->
  Forall (fun l => startsWith l "@@" = false) (split_lines fileDiff) ->
  returns (parseDiffForFile rawDiff filePath)
          (Some {| original := []; modified := [] |}).
Proof.
  intros Hp He Hb Hd Hno.
  eapply returns_eq; [now apply sides_of_section with (fileDiff := fileDiff)|].
  cbv zeta; now rewrite (sides_body_no_header Hno).
Qed.

Lemma sides_without_hunk_witness :
  returns (parseDiffForFile diff_empty "empty.txt")
          (Some {| original := []; modified := [] |}).
Proof.
  assert (Hb : ~ contains diff_empty "Binary files")
    by (apply includes_false_iff; reflexivity).
  assert (Hd : ~ contains diff_empty "deleted file mode")
    by (apply includes_false_iff; reflexivity).
  apply (@sides_without_hunk diff_empty "empty.txt" diff_empty
           eq_refl eq_refl Hb Hd).
  vm_compute; repeat constructor.
Defined.

End TwoSides.

(** * Properties of the rest of the code *)

Section Escaping.

Lemma escape_plain (filePath : str) :
  plain_text filePath -> escapeRegExp filePath = filePath.
Proof.
  unfold plain_text, escapeRegExp.
  induction filePath as [|c p IH]; cbn [flat_map forallb]; [reflexivity|].
  intros H; apply andb_true_iff in H as [Hc Hp].
  destruct (is_special c); [discriminate|].
  cbn [app]; now rewrite IH.
Qed.

(** Escaping a path and reading the result as pattern text gives the path
    back, character for character, so the pattern matches the path
    literally whatever characters it holds; a path without syntax characters
    is left as it is; and escaping at most doubles the length. *)
Theorem escapeRegExp_round_trip (filePath : str) :
  read_chars (escapeRegExp filePath) = Normal filePath /\
  new_filePattern (escapeRegExp filePath) =
    Normal (filePattern_of (Str filePath)) /\
  (plain_text filePath -> escapeRegExp filePath = filePath) /\
  length filePath <= length (escapeRegExp filePath) <= 2 * length filePath.
Proof.
  split; [apply read_escaped|].
  split; [unfold new_filePattern; now rewrite read_escaped|].
  split; [apply escape_plain|].
  unfold escapeRegExp; induction filePath as [|c p IH];
    cbn [flat_map length]; [lia|].
  rewrite length_app; destruct (is_special c); cbn [length]; lia.
Qed.

Lemma escapeRegExp_round_trip_witness :
  escapeRegExp "src/test-file.ts" = lit "src/test-file\.ts" /\
  escapeRegExp "README" = lit "README".
Proof.
  split; [reflexivity|].
  apply (proj1 (proj2 (proj2 (escapeRegExp_round_trip "README")))).
  reflexivity.
Defined.

End Escaping.

Section Extensions.

Lemma eqb_str_eq (a b : str) : eqb_str a b = true <-> a = b.
Proof.
  revert b; induction a as [|x a IH]; intros [|y b]; simpl;
    try (split; [discriminate|discriminate]); [tauto|].
  rewrite andb_true_iff, N.eqb_eq, IH; split.
  - now intros [-> ->].
  - intros H; now inv H.
Qed.

Lemma eqb_str_refl (a : str) : eqb_str a a = true.
Proof. now apply eqb_str_eq. Qed.

Lemma eqb_str_neq (a b : str) : a <> b -> eqb_str a b = false.
Proof.
  intros H; destruct (eqb_str a b) eqn:E; [|reflexivity].
  apply eqb_str_eq in E; contradiction.
Qed.

Lemma split_on_from_none sep : forall s cur,
  ~ In sep s -> split_on_from sep cur s = [cur ++ s].
Proof.
  induction s as [|c s IH]; intros cur H; simpl.
  - now rewrite app_nil_r.
  - destruct (N.eqb_spec c sep) as [->|Hc]; [exfalso; apply H; now left|].
    rewrite IH by (intros Hin; apply H; now right).
    now rewrite <- app_assoc.
Qed.

(** The last piece of a text with a separator in it is what follows the
    last separator. *)
Lemma split_on_from_last sep ext : forall stem cur,
  ~ In sep ext ->
  exists first rest,
    split_on_from sep cur (stem ++ sep :: ext) = first :: rest /\
    rest <> [] /\ last (first :: rest) [] = ext.
Proof.
  induction stem as [|c stem IH]; intros cur H; cbn [app split_on_from].
  - rewrite N.eqb_refl, split_on_from_none by assumption.
    exists cur, [ext]; repeat split; discriminate.
  - destruct (N.eqb c sep).
    + destruct (IH [] H) as (f & r & -> & Hr & Hl).
      exists cur, (f :: r); repeat split; [discriminate|exact Hl].
    + apply IH, H.
Qed.

Lemma split_on_from_pieces sep : forall s cur,
  ~ In sep cur -> Forall (fun x => ~ In sep x) (split_on_from sep cur s).
Proof.
  induction s as [|c s IH]; intros cur Hcur; simpl.
  - now constructor.
  - destruct (N.eqb_spec c sep) as [->|Hc].
    + constructor; [exact Hcur|]. apply IH; intros [].
    + apply IH; intros H; apply in_app_or in H as [H|[H|[]]]; auto.
Qed.

Lemma split_on_from_nonempty sep : forall s cur,
  split_on_from sep cur s <> [].
Proof.
  induction s as [|c s IH]; intros cur; simpl; [discriminate|].
  destruct (N.eqb c sep); [discriminate|apply IH].
Qed.

Lemma last_In {A} (l : list A) (d : A) : l <> [] -> In (last l d) l.
Proof.
  induction l as [|x l IH]; [contradiction|]; intros _.
  destruct l as [|y l]; [now left|].
  right; apply IH; discriminate.
Qed.

(** [getFileExtension] returns what follows the last dot of the path, the
    empty string when the path has no dot, and never a text with a dot in
    it. *)
Theorem getFileExtension_last_dot :
  (forall stem ext,
     ~ In dot_char ext ->
     getFileExtension (stem ++ dot_char :: ext) = ext) /\
  (forall path, ~ In dot_char path -> getFileExtension path = []) /\
  (forall path, ~ In dot_char (getFileExtension path)).
Proof.
  unfold getFileExtension, split_on, dot_char; split; [|split].
  - intros stem ext H.
    destruct (@split_on_from_last (ch ".") ext stem [] H)
      as (f & r & -> & Hr & Hl).
    destruct r; [contradiction|exact Hl].
  - intros path H; now rewrite split_on_from_none.
  - intros path.
    pose proof (@split_on_from_pieces (ch ".") path [] (fun H => H)) as HF.
    destruct (Nat.ltb 1 (length (split_on_from (ch ".") [] path)));
      [|intros []].
    rewrite Forall_forall in HF; apply HF, last_In.
    apply split_on_from_nonempty.
Qed.

Lemma getFileExtension_last_dot_witness :
  getFileExtension "packages/web/vite.config.ts" = lit "ts" /\
  getFileExtension "Makefile" = [].
Proof.
  split.
  - apply (proj1 getFileExtension_last_dot (lit "packages/web/vite.config")
             (lit "ts")).
    vm_compute; intuition discriminate.
  - apply (proj1 (proj2 getFileExtension_last_dot) (lit "Makefile")).
    vm_compute; intuition discriminate.
Defined.

Lemma languageMap_keys :
  Forall (fun kv => ~ In dot_char (fst kv) /\
                    get_property languageMap (fst kv) =
                    Some (OwnString (snd kv)) /\
                    falsy (snd kv) = false)
         languageMap.
Proof.
  repeat constructor; vm_compute; intuition discriminate.
Qed.

(** A path that ends in a dot and one of the extensions of the table is
    given the language of that extension, whatever stands before the dot;
    a path without a dot is plain text. *)
Theorem getLanguageFromPath_known (stem ext lang : str) :
  In (ext, lang) languageMap ->
  getLanguageFromPath (stem ++ dot_char :: ext) = OwnString lang /\
  (~ In dot_char stem -> getLanguageFromPath stem = OwnString "plaintext").
Proof.
  intros Hin; split.
  - pose proof languageMap_keys as HF; rewrite Forall_forall in HF.
    destruct (HF _ Hin) as (Hd & Hg & Hf); cbn [fst snd] in *.
    unfold getLanguageFromPath.
    rewrite (proj1 getFileExtension_last_dot stem ext Hd), Hg, Hf.
    reflexivity.
  - intros Hs; unfold getLanguageFromPath.
    now rewrite (proj1 (proj2 getFileExtension_last_dot) stem Hs).
Qed.

Lemma getLanguageFromPath_known_witness :
  getLanguageFromPath "packages/web/src/App.test.tsx" = OwnString "typescript".
Proof.
  apply (@getLanguageFromPath_known (lit "packages/web/src/App.test")
           (lit "tsx") (lit "typescript")).
  vm_compute; tauto.
Defined.

Lemma own_property_In obj key v :
  own_property obj key = Some v -> In v (map snd obj).
Proof.
  induction obj as [|[k w] obj IH]; simpl; [discriminate|].
  destruct (eqb_str k key); [intros H; inv H; now left|auto].
Qed.

(** The result is a string, one of the languages of the table or
    [plaintext], unless the extension is the name of a member that objects
    inherit; then it is that member, not a string. *)
Theorem getLanguageFromPath_result (path : str) :
  let ext := getFileExtension path in
  (~ In ext object_prototype_members ->
   exists lang,
     getLanguageFromPath path = OwnString lang /\
     (lang = lit "plaintext" \/ In lang (map snd languageMap))) /\
  (In ext object_prototype_members ->
   getLanguageFromPath path = Inherited ext).
Proof.
  cbv zeta; unfold getLanguageFromPath, get_property; split.
  - intros Hno.
    destruct (own_property languageMap (getFileExtension path)) as [v|] eqn:E.
    + apply own_property_In in E.
      destruct (falsy v); eauto.
    + destruct (existsb _ object_prototype_members) eqn:Ex; [|eauto].
      apply existsb_exists in Ex as (x & Hx & Hk).
      apply eqb_str_eq in Hk; subst x; contradiction.
  - intros Hin.
    assert (Hown : own_property languageMap (getFileExtension path) = None).
    { generalize dependent (getFileExtension path); intros ext Hin.
      repeat (destruct Hin as [<-|Hin]; [reflexivity|]); destruct Hin. }
    rewrite Hown.
    assert (Hex : existsb (eqb_str (getFileExtension path))
                    object_prototype_members = true).
    { apply existsb_exists; eexists; split; [exact Hin|apply eqb_str_refl]. }
    now rewrite Hex.
Qed.

Lemma getLanguageFromPath_result_witness :
  getLanguageFromPath "notes.txt" = OwnString "plaintext" /\
  getLanguageFromPath "build.constructor" = Inherited "constructor".
Proof.
  split.
  - destruct (proj1 (getLanguageFromPath_result "notes.txt"))
      as (lang & Hl & _).
    + vm_compute; intuition discriminate.
    + rewrite Hl; vm_compute in Hl; inv Hl; reflexivity.
  - apply (proj2 (getLanguageFromPath_result "build.constructor")).
    vm_compute; tauto.
Defined.

End Extensions.

Section Numbers.

Lemma digit_not_space (c : char) : is_digit c = true -> is_space c = false.
Proof.
  unfold is_digit, is_space; intros H.
  apply andb_true_iff in H as [H1 H2]; apply N.leb_le in H1, H2.
  apply orb_false_iff; split.
  - simpl; repeat (apply orb_false_iff; split; [apply N.eqb_neq; lia|]).
    reflexivity.
  - apply andb_false_iff; left; apply N.leb_gt; lia.
Qed.

Lemma digit_not_sign (c : char) :
  is_digit c = true -> N.eqb c (ch "-") = false /\ N.eqb c (ch "+") = false.
Proof.
  unfold is_digit; intros H.
  apply andb_true_iff in H as [H1 H2]; apply N.leb_le in H1, H2.
  split; apply N.eqb_neq; cbn; lia.
Qed.

Lemma skip_space_split (s : str) :
  exists ws, s = ws ++ skip_space s /\ forallb is_space ws = true.
Proof.
  induction s as [|c s (ws & Hs & Hw)]; simpl; [now exists []|].
  destruct (is_space c) eqn:E; [|now exists []].
  exists (c :: ws); simpl; rewrite E, Hw; split; [now rewrite <- Hs|auto].
Qed.

Lemma skip_space_app (ws rest : str) :
  forallb is_space ws = true ->
  match rest with [] => True | c :: _ => is_space c = false end ->
  skip_space (ws ++ rest) = rest.
Proof.
  induction ws as [|c ws IH]; simpl; intros Hw Hr.
  - destruct rest as [|c rest]; simpl; [reflexivity|now rewrite Hr].
  - apply andb_true_iff in Hw as [Hc Hw]; rewrite Hc; auto.
Qed.

Lemma digits_prefix_run (u : str) : forall a,
  exists d tail,
    u = d ++ tail /\ forallb is_digit d = true /\ no_digit_ahead tail /\
    digits_prefix (Some a) u =
    Some (fold_left (fun acc c => 10 * acc + digit_val c)%N d a).
Proof.
  induction u as [|c u IH]; intros a; simpl.
  - now exists [], [].
  - destruct (is_digit c) eqn:E.
    + destruct (IH (10 * a + digit_val c)%N) as (d & tail & -> & Hd & Ht & Hp).
      exists (c :: d), tail; simpl; rewrite E, Hd; auto.
    + exists [], (c :: u); simpl; auto.
Qed.

Lemma digits_prefix_inv (u : str) (n : N) :
  digits_prefix None u = Some n ->
  exists d tail,
    u = d ++ tail /\ digits d /\ no_digit_ahead tail /\ n = decimal d.
Proof.
  destruct u as [|c u]; simpl; [discriminate|].
  destruct (is_digit c) eqn:E; [|discriminate].
  destruct (digits_prefix_run u (digit_val c)) as (d & tail & -> & Hd & Ht & Hp).
  rewrite Hp; intros H; inv H.
  exists (c :: d), tail; repeat split; auto; [discriminate|].
  simpl; now rewrite E, Hd.
Qed.

Lemma digits_prefix_tail (d tail : str) : forall a,
  forallb is_digit d = true -> no_digit_ahead tail ->
  digits_prefix (Some a) (d ++ tail) =
  Some (fold_left (fun acc c => 10 * acc + digit_val c)%N d a).
Proof.
  induction d as [|c d IH]; intros a Hd Ht; simpl.
  - destruct tail as [|c tail]; simpl in *; [reflexivity|now rewrite Ht].
  - simpl in Hd; apply andb_true_iff in Hd as [Hc Hd]; rewrite Hc; auto.
Qed.

Lemma digits_prefix_intro (d tail : str) :
  digits d -> no_digit_ahead tail ->
  digits_prefix None (d ++ tail) = Some (decimal d).
Proof.
  intros [Hne Hd] Ht; destruct d as [|c d]; [contradiction|].
  simpl in Hd; apply andb_true_iff in Hd as [Hc Hd].
  cbn [app digits_prefix]; rewrite Hc.
  now rewrite digits_prefix_tail.
Qed.

(** [parseInt] gives a number of at least 1 exactly for white space, an
    optional plus sign and a run of digits that denotes it, whatever
    follows the digits. *)
Lemma parseInt_positive (s : str) (n : Z) :
  parseInt s = Some n /\ (1 <= n)%Z <->
  exists d, reads_as s d /\ n = Z.of_N (decimal d) /\ (1 <= n)%Z.
Proof.
  unfold parseInt; split.
  - intros [H Hn].
    destruct (skip_space_split s) as (ws & Hs & Hw).
    destruct (skip_space s) as [|c u] eqn:Et;
      [unfold snd in H; cbv beta iota in H; discriminate|].
    destruct (N.eqb_spec c (ch "-")) as [->|Hm];
      unfold fst, snd in H; cbv beta iota in H.
    { destruct (digits_prefix None u) as [k|]; [|discriminate].
      assert (n = (-1 * Z.of_N k)%Z) by congruence.
      exfalso; lia. }
    destruct (N.eqb_spec c (ch "+")) as [->|Hp];
      unfold fst, snd in H; cbv beta iota in H.
    + destruct (digits_prefix None u) as [k|] eqn:E; [|discriminate].
      assert (Hk : n = (1 * Z.of_N k)%Z) by congruence; clear H.
      apply digits_prefix_inv in E as (d & tail & -> & Hd & Ht & ->).
      exists d; split; [|split; [lia|assumption]].
      exists ws, (lit "+"), tail.
      split; [exact Hs|]; split; [exact Hw|]; split; [now right|].
      split; assumption.
    + destruct (digits_prefix None (c :: u)) as [k|] eqn:E; [|discriminate].
      assert (Hk : n = (1 * Z.of_N k)%Z) by congruence; clear H.
      apply digits_prefix_inv in E as (d & tail & Hu & Hd & Ht & ->).
      exists d; split; [|split; [lia|assumption]].
      exists ws, [], tail; cbn [app]; rewrite <- Hu.
      split; [exact Hs|]; split; [exact Hw|]; split; [now left|].
      split; assumption.
  - intros (d & (ws & sign & tail & -> & Hw & Hsign & Hd & Ht) & -> & Hn).
    split; [|assumption].
    pose proof Hd as [Hne Hd'].
    destruct d as [|c d]; [contradiction|].
    simpl in Hd'; apply andb_true_iff in Hd' as [Hc _].
    destruct (digit_not_sign _ Hc) as [Hm Hp].
    destruct Hsign as [->| ->].
    + rewrite skip_space_app; auto; [|now apply digit_not_space].
      cbn [app]; rewrite Hm, Hp; unfold fst, snd; cbv beta iota.
      change (c :: d ++ tail) with ((c :: d) ++ tail).
      rewrite digits_prefix_intro by assumption.
      f_equal; lia.
    + rewrite skip_space_app; auto; [|reflexivity].
      change (lit "+" ++ (c :: d) ++ tail) with (ch "+" :: (c :: d) ++ tail).
      cbv beta iota.
      change (N.eqb (ch "+") (ch "-")) with false.
      rewrite N.eqb_refl; unfold fst, snd; cbv beta iota.
      rewrite digits_prefix_intro by assumption.
      f_equal; lia.
Qed.

(** [validatePRNumber] returns [n] exactly when the argument is white
    space, an optional plus sign and digits that denote [n], with [n] from 1
    to 999999; what follows the digits is ignored.  It throws otherwise. *)
Theorem validatePRNumber_accepts (value : str) (n : Z) :
  validatePRNumber value = Returned n <->
  exists d,
    reads_as value d /\ n = Z.of_N (decimal d) /\ (1 <= n <= 999999)%Z.
Proof.
  unfold validatePRNumber; split.
  - destruct (parseInt value) as [num|] eqn:E; [|discriminate].
    destruct (Z.ltb_spec num 1) as [Hlo|Hlo],
             (Z.ltb_spec 999999 num) as [Hhi|Hhi];
      try discriminate; intros Hret; inv Hret.
    destruct (proj1 (parseInt_positive value n)) as (d & Hr & Hn & _);
      [now split|].
    exists d; split; [exact Hr|]; split; [exact Hn|lia].
  - intros (d & Hr & Hn & H1 & H2).
    destruct (proj2 (parseInt_positive value n)) as [E _];
      [exists d; auto|].
    rewrite E.
    destruct (Z.ltb_spec n 1), (Z.ltb_spec 999999 n); try lia; reflexivity.
Qed.

Lemma last_digit (r : N) :
  (r < 10)%N -> is_digit (48 + r)%N = true /\ digit_val (48 + r)%N = r.
Proof.
  intros Hr; unfold is_digit, digit_val; split; [|lia].
  apply andb_true_iff; split; apply N.leb_le; lia.
Qed.

Lemma digits_of_S (fuel : nat) (n : N) (acc : str) :
  digits_of (S fuel) n acc =
  if N.ltb n 10 then (48 + n mod 10)%N :: acc
  else digits_of fuel (n / 10)%N ((48 + n mod 10)%N :: acc).
Proof. reflexivity. Qed.

Lemma digits_of_spec (fuel : nat) : forall n acc,
  (n < 2 ^ N.of_nat (S fuel))%N ->
  exists d,
    digits_of (S fuel) n acc = d ++ acc /\ d <> [] /\
    forallb is_digit d = true /\
    forall a,
      fold_left (fun acc c => 10 * acc + digit_val c)%N d a =
      (a * 10 ^ N.of_nat (length d) + n)%N.
Proof.
  induction fuel as [|fuel IH]; intros n acc Hn; rewrite digits_of_S;
    assert (Hr : (n mod 10 < 10)%N) by (apply N.mod_lt; discriminate);
    pose proof (N.div_mod n 10 ltac:(discriminate)) as Hqr;
    set (r := (n mod 10)%N) in *; set (q := (n / 10)%N) in *;
    clearbody r q;
    destruct (last_digit Hr) as [Hdig Hval];
    destruct (N.ltb_spec n 10) as [Hlt|Hge].
  - exists [(48 + r)%N]; split; [reflexivity|].
    split; [discriminate|]; split; [cbn [forallb]; now rewrite Hdig|].
    intros a; cbn [fold_left length]; rewrite Hval.
    change (N.of_nat 1) with 1%N; lia.
  - exfalso; change (2 ^ N.of_nat 1)%N with 2%N in Hn; lia.
  - exists [(48 + r)%N]; split; [reflexivity|].
    split; [discriminate|]; split; [cbn [forallb]; now rewrite Hdig|].
    intros a; cbn [fold_left length]; rewrite Hval.
    change (N.of_nat 1) with 1%N; lia.
  - assert (Hdiv : (q < 2 ^ N.of_nat (S fuel))%N).
    { rewrite (Nat2N.inj_succ (S fuel)), N.pow_succ_r' in Hn.
      remember (2 ^ N.of_nat (S fuel))%N as b; lia. }
    destruct (IH q ((48 + r)%N :: acc) Hdiv)
      as (d & Hd & Hne & Hall & Hfold).
    exists (d ++ [(48 + r)%N]); split;
      [rewrite Hd, <- app_assoc; reflexivity|].
    split; [now destruct d|].
    split; [rewrite forallb_app, Hall; cbn [forallb]; now rewrite Hdig|].
    intros a; rewrite fold_left_app, Hfold; cbn [fold_left].
    rewrite Hval, length_app; cbn [length].
    replace (N.of_nat (length d + 1)) with (N.succ (N.of_nat (length d)))
      by lia.
    rewrite N.pow_succ_r'.
    remember (10 ^ N.of_nat (length d))%N as b; lia.
Qed.

(** [parseInt] reads a safe integer back from its string. *)
Lemma parseInt_number_to_string (x : safe_integer) :
  parseInt (number_to_string x) = Some (int_value x).
Proof.
  unfold number_to_string.
  set (n := Z.abs_N (int_value x)).
  assert (Hfuel : (n < 2 ^ N.of_nat (S (N.to_nat (N.log2 n))))%N).
  { rewrite Nat2N.inj_succ, N2Nat.id.
    destruct (N.eq_dec n 0) as [->|Hn0]; [reflexivity|].
    apply N.log2_spec; lia. }
  destruct (digits_of_spec [] Hfuel) as (d & Hd & Hne & Hall & Hfold).
  rewrite Hd, app_nil_r.
  assert (Hdec : decimal d = n).
  { unfold decimal; rewrite Hfold; lia. }
  assert (Hpre : digits_prefix None d = Some n).
  { rewrite <- Hdec, <- (app_nil_r d) at 1.
    apply digits_prefix_intro; [now split|exact I]. }
  destruct d as [|c d]; [contradiction|].
  simpl in Hall; apply andb_true_iff in Hall as [Hc _].
  destruct (digit_not_sign _ Hc) as [Hm Hp].
  pose proof (digit_not_space _ Hc) as Hs.
  unfold parseInt.
  destruct (Z.ltb_spec (int_value x) 0) as [Hneg|Hpos].
  - cbn [skip_space].
    change (is_space (ch "-")) with false; cbv beta iota.
    rewrite N.eqb_refl; unfold fst, snd; cbv beta iota.
    rewrite Hpre; f_equal; subst n; lia.
  - cbn [skip_space]; rewrite Hs, Hm, Hp; unfold fst, snd; cbv beta iota.
    rewrite Hpre; f_equal; subst n; lia.
Qed.

(** [validateLineNumber] returns [n] exactly when [n] is from 1 to 1000000
    and the argument is either a string of white space, an optional plus
    sign and digits that denote [n], whatever follows the digits, or the
    Number [n]; it returns undefined for every other string or safe integer
    and for [undefined] and [null]. *)
Theorem validateLineNumber_accepts (value : argument) (n : Z) :
  validateLineNumber value = Some n <->
  (1 <= n <= 1000000)%Z /\
  match value with
  | ArgString s => exists d, reads_as s d /\ n = Z.of_N (decimal d)
  | ArgNumber x => int_value x = n
  | ArgUndefined | ArgNull => False
  end.
Proof.
  assert (Hrange : forall o : option Z,
            match o with
            | None => None
            | Some num =>
                if Z.ltb num 1 || Z.ltb 1000000 num then None else Some num
            end = Some n <-> o = Some n /\ (1 <= n <= 1000000)%Z).
  { intros [num|]; [|split; [discriminate|intros [? _]; discriminate]].
    destruct (Z.ltb_spec num 1), (Z.ltb_spec 1000000 num); cbn [orb];
      (split;
       [intros Heq;
        first [discriminate
              |injection Heq as ->; split; [reflexivity|lia]]
       |intros [Heq Hr]; injection Heq as ->;
        first [reflexivity|exfalso; lia]]). }
  destruct value as [| |s|x]; cbn [validateLineNumber parseInt_of].
  - split; [discriminate|tauto].
  - split; [discriminate|tauto].
  - rewrite Hrange; split.
    + intros [E Hn].
      destruct (proj1 (parseInt_positive s n)) as (d & Hr & Hd & _);
        [split; [exact E|lia]|].
      split; [exact Hn|]; now exists d.
    + intros [Hn (d & Hr & Hd)]; split; [|exact Hn].
      apply (proj2 (parseInt_positive s n)).
      exists d; repeat split; auto; lia.
  - rewrite Hrange, parseInt_number_to_string; split.
    + intros [E Hn]; split; [exact Hn|congruence].
    + intros [Hn E]; split; [congruence|exact Hn].
Qed.

End Numbers.

Section FilePaths.

Lemma contains_single (c : char) (s : str) : contains s [c] <-> In c s.
Proof.
  split.
  - intros (pre & post & ->); apply in_or_app; right; now left.
  - intros H; apply in_split in H as (pre & post & ->); now exists pre, post.
Qed.

Lemma split_on_from_contains sep comp : forall s cur,
  In comp (split_on_from sep cur s) -> contains (cur ++ s) comp.
Proof.
  induction s as [|c s IH]; intros cur; simpl.
  - intros [<-|[]]; exists [], []; now rewrite !app_nil_r.
  - destruct (N.eqb c sep).
    + intros [<-|H]; [now exists [], (c :: s)|].
      apply IH in H as (pre & post & H); simpl in H.
      exists (cur ++ c :: pre), post; rewrite H, <- app_assoc; reflexivity.
    + intros H; apply IH in H; now rewrite <- app_assoc in H.
Qed.

Lemma split_on_from_hd sep : forall s cur,
  cur <> [] -> hd [] (split_on_from sep cur s) <> [].
Proof.
  induction s as [|c s IH]; intros cur H; simpl; [exact H|].
  destruct (N.eqb c sep); [exact H|].
  apply IH; destruct cur; discriminate.
Qed.

(** [validateFilePath] returns its argument, unchanged, exactly when it is
    not empty, has at most 1000 code units, does not contain [..] or a NUL
    and does not start with [/]; it throws otherwise.  No component of an
    accepted path is [..], and its first component is not empty. *)
Theorem validateFilePath_accepts (path : str) :
  (forall q,
     validateFilePath path = Returned q <->
     q = path /\ path <> [] /\ ~ contains path ".." /\
     startsWith path "/" = false /\ length path <= 1000 /\ ~ In 0%N path) /\
  (validateFilePath path = Returned path ->
   Forall (fun comp => comp <> lit "..") (split_on (ch "/") path) /\
   hd [] (split_on (ch "/") path) <> []).
Proof.
  assert (Hiff : forall q,
     validateFilePath path = Returned q <->
     q = path /\ path <> [] /\ ~ contains path ".." /\
     startsWith path "/" = false /\ length path <= 1000 /\ ~ In 0%N path).
  { intros q; unfold validateFilePath.
    destruct path as [|c p]; cbn [falsy].
    { split; [discriminate|intros (_ & H & _); contradiction]. }
    destruct (includes (c :: p) "..") eqn:Ei; cbn [orb].
    { split; [discriminate|intros (_ & _ & H & _)].
      apply includes_iff in Ei; contradiction. }
    destruct (startsWith (c :: p) "/") eqn:Es.
    { split; [discriminate|intros (_ & _ & _ & H & _); discriminate]. }
    destruct (Nat.ltb_spec 1000 (length (c :: p))) as [Hl|Hl].
    { split; [discriminate|intros (_ & _ & _ & _ & H' & _); lia]. }
    destruct (includes (c :: p) [0%N]) eqn:Ez.
    { split; [discriminate|intros (_ & _ & _ & _ & _ & H')].
      apply includes_iff in Ez; apply contains_single in Ez; contradiction. }
    split; [|now intros (-> & _)].
    intros H'; inv H'.
    apply includes_false_iff in Ei, Ez.
    split; [reflexivity|]; split; [discriminate|]; split; [exact Ei|].
    split; [reflexivity|]; split; [exact Hl|].
    intros Hin; apply Ez; now apply contains_single. }
  split; [exact Hiff|].
  intros H; apply Hiff in H as (_ & Hne & Hdd & Hs & _).
  split.
  - apply Forall_forall; intros comp Hin ->.
    apply split_on_from_contains in Hin; contradiction.
  - destruct path as [|c p]; [contradiction|].
    unfold split_on; cbn [split_on_from].
    destruct (N.eqb_spec c (ch "/")) as [->|Hc]; [discriminate Hs|].
    apply split_on_from_hd; discriminate.
Qed.

Lemma validateFilePath_accepts_witness :
  Forall (fun comp => comp <> lit "..") (split_on (ch "/") "src/app.ts") /\
  hd [] (split_on (ch "/") "src/app.ts") <> [].
Proof.
  apply (proj2 (validateFilePath_accepts "src/app.ts")); reflexivity.
Defined.

End FilePaths.

Section ValidationWitnesses.

Lemma validatePRNumber_accepts_witness :
  validatePRNumber "123abc" = Returned 123%Z.
Proof.
  apply (proj2 (validatePRNumber_accepts "123abc" 123%Z)).
  exists (lit "123"); split; [|split; [reflexivity|lia]].
  exists [], [], (lit "abc"); repeat split; try reflexivity;
    [now left|discriminate].
Defined.

Lemma validateLineNumber_accepts_witness :
  validateLineNumber
    (ArgNumber {| int_value := 42; int_safe := eq_refl |}) = Some 42%Z /\
  validateLineNumber (ArgString " +42") = Some 42%Z.
Proof.
  split.
  - apply (proj2 (validateLineNumber_accepts
                    (ArgNumber {| int_value := 42; int_safe := eq_refl |})
                    42%Z)).
    split; [lia|reflexivity].
  - apply (proj2 (validateLineNumber_accepts (ArgString " +42") 42%Z)).
    split; [lia|].
    exists (lit "42"); split; [|reflexivity].
    exists (lit " "), (lit "+"), []; repeat split; try reflexivity;
      [now right|discriminate].
Defined.


Lemma sides_null_iff_render_witness :
  returns (parseDiffForFile diff_deleted "deleted.txt") None.
Proof.
  apply (proj2 (sides_null_iff_render diff_deleted "deleted.txt")).
  right; right.
  eapply returns_eq; [apply parseDiffWithColors_returns|reflexivity].
Defined.

End ValidationWitnesses.

Section CacheFacts.

Context {T : Type}.

Implicit Types (st : Cache.store T) (e : Cache.entry T) (k : str).

Lemma map_get_set_same st k e :
  Cache.map_get (Cache.map_set st k e) k = Some e.
Proof.
  induction st as [|[k' e'] st IH]; simpl.
  - now rewrite eqb_str_refl.
  - destruct (eqb_str k' k) eqn:E; simpl; rewrite E; auto.
Qed.

Lemma map_get_set_other st k k' e :
  k <> k' -> Cache.map_get (Cache.map_set st k e) k' = Cache.map_get st k'.
Proof.
  intros Hk; induction st as [|[k0 e0] st IH]; simpl.
  - now rewrite eqb_str_neq.
  - destruct (eqb_str k0 k) eqn:E; simpl.
    + apply eqb_str_eq in E; subst k0; now rewrite eqb_str_neq.
    + now rewrite IH.
Qed.

Lemma map_get_delete_same st k :
  Cache.map_get (Cache.map_delete st k) k = None.
Proof.
  unfold Cache.map_delete; induction st as [|[k' e'] st IH]; simpl; auto.
  destruct (eqb_str k' k) eqn:E; simpl; [exact IH|now rewrite E].
Qed.

Lemma map_get_delete_other st k k' :
  k <> k' -> Cache.map_get (Cache.map_delete st k) k' = Cache.map_get st k'.
Proof.
  intros Hk; unfold Cache.map_delete.
  induction st as [|[k0 e0] st IH]; simpl; auto.
  destruct (eqb_str k0 k) eqn:E; simpl.
  - apply eqb_str_eq in E; subst k0; now rewrite eqb_str_neq.
  - now rewrite IH.
Qed.

(** A value that was set is read back until its time is over: with
    [expiresAt = now + ttl] (five minutes without [ttl]), a read at a time up
    to [expiresAt] returns the value and leaves the store as it is; a later
    read returns null and removes the entry. *)
Theorem cache_set_then_get (now now' : Z) (k : str) (v : T) (ttl : option Z)
    (st : Cache.store T) :
  let expires :=
    (now + match ttl with Some t => t | None => 300000 end)%Z in
  let st' := Cache.set now k v ttl st in
  ((now' <= expires)%Z -> Cache.get now' k st' = (Some v, st')) /\
  ((expires < now')%Z ->
   fst (Cache.get now' k st') = None /\
   Cache.map_get (snd (Cache.get now' k st')) k = None).
Proof.
  cbv zeta; unfold Cache.get, Cache.set.
  rewrite map_get_set_same; cbn [Cache.expiresAt Cache.value].
  change Cache.defaultTTL with 300000%Z.
  split; intros H.
  - destruct (Z.ltb_spec (now + match ttl with Some t => t | None => 300000 end)
                         now'); [lia|reflexivity].
  - destruct (Z.ltb_spec (now + match ttl with Some t => t | None => 300000 end)
                         now'); [|lia].
    split; [reflexivity|apply map_get_delete_same].
Qed.

Lemma get_other_key (now : Z) st st' k' :
  Cache.map_get st' k' = Cache.map_get st k' ->
  fst (Cache.get now k' st') = fst (Cache.get now k' st).
Proof.
  unfold Cache.get; intros ->.
  destruct (Cache.map_get st k') as [e|]; [|reflexivity].
  now destruct (Z.ltb (Cache.expiresAt e) now).
Qed.

(** What a read of one key returns is not changed by setting, deleting or
    reading another key. *)
Theorem cache_other_keys (now now' : Z) (k k' : str) (v : T)
    (ttl : option Z) (st : Cache.store T) :
  k <> k' ->
  fst (Cache.get now' k' (Cache.set now k v ttl st)) =
    fst (Cache.get now' k' st) /\
  fst (Cache.get now' k' (Cache.delete k st)) = fst (Cache.get now' k' st) /\
  fst (Cache.get now' k' (snd (Cache.get now k st))) =
    fst (Cache.get now' k' st).
Proof.
  intros Hk; repeat split; apply get_other_key.
  - now apply map_get_set_other.
  - now apply map_get_delete_other.
  - unfold Cache.get; destruct (Cache.map_get st k) as [e|]; [|reflexivity].
    destruct (Z.ltb (Cache.expiresAt e) now); [|reflexivity].
    now apply map_get_delete_other.
Qed.

(** Once a read of a key has returned null, every read of that key returns
    null, whatever the clock shows, until the key is set again; and so after
    [delete] of the key and after [clear]. *)
Theorem cache_miss_is_stable (now now' : Z) (k : str) (st : Cache.store T) :
  (fst (Cache.get now k st) = None ->
   fst (Cache.get now' k (snd (Cache.get now k st))) = None) /\
  fst (Cache.get now' k (Cache.delete k st)) = None /\
  fst (Cache.get now' k (Cache.clear st)) = None.
Proof.
  repeat split.
  - unfold Cache.get at 1 3.
    destruct (Cache.map_get st k) as [e|] eqn:E.
    + destruct (Z.ltb (Cache.expiresAt e) now); [|discriminate].
      intros _; unfold Cache.get; cbn [snd].
      now rewrite map_get_delete_same.
    + intros _; unfold Cache.get; cbn [snd]; now rewrite E.
  - unfold Cache.get, Cache.delete; now rewrite map_get_delete_same.
Qed.

End CacheFacts.

Section CacheWitnesses.

Lemma cache_set_then_get_witness :
  Cache.get 1299999 "pr:1" (Cache.set 1000000 "pr:1" 7 None []) =
  (Some 7, Cache.set 1000000 "pr:1" 7 None []).
Proof.
  apply (proj1 (@cache_set_then_get nat 1000000 1299999 "pr:1" 7 None [])).
  cbv zeta; lia.
Defined.

Lemma cache_other_keys_witness :
  fst (Cache.get 5 "b" (Cache.set 3 "a" 1 (Some 10%Z)
                          (Cache.set 0 "b" 2 None []))) = Some 2.
Proof.
  rewrite (proj1 (@cache_other_keys nat 3 5 "a" "b" 1 (Some 10%Z)
                    (Cache.set 0 "b" 2 None []) ltac:(discriminate))).
  reflexivity.
Defined.

Lemma cache_miss_is_stable_witness :
  fst (Cache.get 0 "a"
         (snd (Cache.get 100 "a" (Cache.set 0 "a" 1 (Some 10%Z) [])))) = None.
Proof.
  apply (proj1 (@cache_miss_is_stable nat 100 0 "a"
                  (Cache.set 0 "a" 1 (Some 10%Z) []))).
  reflexivity.
Defined.

End CacheWitnesses.

Section CacheCleanup.

Context {T : Type}.

Implicit Types (st : Cache.store T) (k : str).

Lemma eqb_str_sym (a b : str) : eqb_str a b = eqb_str b a.
Proof.
  destruct (eqb_str a b) eqn:E.
  - apply eqb_str_eq in E; subst; symmetry; apply eqb_str_refl.
  - destruct (eqb_str b a) eqn:E'; [|reflexivity].
    apply eqb_str_eq in E'; subst; now rewrite eqb_str_refl in E.
Qed.

Lemma filter_twice {A} (f g : A -> bool) (l : list A) :
  filter f (filter g l) = filter (fun x => g x && f x) l.
Proof.
  induction l as [|x l IH]; simpl; [reflexivity|].
  destruct (g x); simpl; [destruct (f x)|]; now rewrite IH.
Qed.

Lemma filter_all {A} (l : list A) : filter (fun _ => true) l = l.
Proof. induction l; simpl; congruence. Qed.

(** The loop of the cleanup removes from [acc] the keys of the entries of
    [l] whose time is over. *)
Lemma cleanup_fold (now : Z) (l : Cache.store T) : forall acc,
  fold_left
    (fun (acc : Cache.store T) ke =>
       if Z.ltb (Cache.expiresAt (snd ke)) now
       then Cache.map_delete acc (fst ke) else acc)
    l acc =
  filter (fun ke =>
            negb (existsb (fun ke' => Z.ltb (Cache.expiresAt (snd ke')) now &&
                                      eqb_str (fst ke) (fst ke')) l))
         acc.
Proof.
  induction l as [|ke' l IH]; intros acc; simpl.
  - now rewrite filter_all.
  - rewrite IH.
    destruct (Z.ltb (Cache.expiresAt (snd ke')) now); simpl; [|reflexivity].
    unfold Cache.map_delete; rewrite filter_twice.
    apply filter_ext; intros ke; now rewrite negb_orb.
Qed.

Lemma map_get_absent st k : ~ In k (map fst st) -> Cache.map_get st k = None.
Proof.
  induction st as [|[k' e'] st IH]; simpl; [reflexivity|].
  intros H; rewrite eqb_str_neq by (intros ->; apply H; now left).
  apply IH; intros Hin; apply H; now right.
Qed.

Lemma filter_keys (p : str * Cache.entry T -> bool) st k :
  In k (map fst (filter p st)) -> In k (map fst st).
Proof.
  intros H; apply in_map_iff in H as (ke & <- & Hin).
  apply filter_In in Hin as [Hin _]; now apply in_map.
Qed.

Lemma filter_keys_NoDup (p : str * Cache.entry T -> bool) st :
  NoDup (map fst st) -> NoDup (map fst (filter p st)).
Proof.
  induction st as [|[k e] st IH]; simpl; intros H; [constructor|].
  inv H; destruct (p (k, e)); simpl; auto.
  constructor; auto; intros Hin; apply filter_keys in Hin; contradiction.
Qed.

Lemma map_get_filter (p : str * Cache.entry T -> bool) st k :
  NoDup (map fst st) ->
  Cache.map_get (filter p st) k =
  match Cache.map_get st k with
  | Some e => if p (k, e) then Some e else None
  | None => None
  end.
Proof.
  induction st as [|[k0 e0] st IH]; simpl; intros H; [reflexivity|].
  inv H; destruct (eqb_str k0 k) eqn:E.
  - apply eqb_str_eq in E; subst k0.
    destruct (p (k, e0)); simpl; [now rewrite eqb_str_refl|].
    apply map_get_absent; intros Hin; apply filter_keys in Hin; contradiction.
  - destruct (p (k0, e0)); simpl; rewrite ?E; auto.
Qed.

(** On a store with one entry per key, the cleanup keeps exactly the
    entries whose time is not over, in their order; no later read of any key
    returns something else than it would have without the cleanup. *)
Theorem cache_cleanup (now : Z) (st : Cache.store T) :
  NoDup (map fst st) ->
  Cache.cleanup now st = filter (live_b now) st /\
  NoDup (map fst (Cache.cleanup now st)) /\
  forall now' k,
    (now <= now')%Z ->
    fst (Cache.get now' k (Cache.cleanup now st)) = fst (Cache.get now' k st).
Proof.
  intros Hnd.
  assert (Heq : Cache.cleanup now st = filter (live_b now) st).
  { unfold Cache.cleanup; rewrite cleanup_fold.
    apply filter_ext_in; intros [k e] Hin; unfold live_b; cbn [fst snd].
    f_equal; destruct (Z.ltb (Cache.expiresAt e) now) eqn:Ee.
    - apply existsb_exists; exists (k, e); cbn [fst snd].
      now rewrite Ee, eqb_str_refl.
    - destruct (existsb _ st) eqn:Ex; [|reflexivity].
      apply existsb_exists in Ex as ([k' e'] & Hin' & H); cbn [fst snd] in H.
      apply andb_true_iff in H as [He' Hk]; apply eqb_str_eq in Hk; subst k'.
      assert (e' = e); [|subst; congruence].
      clear -Hnd Hin Hin'; induction st as [|[k0 e0] st IH];
        [contradiction|].
      inv Hnd; destruct Hin as [Hin|Hin], Hin' as [Hin'|Hin'].
      + congruence.
      + inv Hin; exfalso; apply H1; apply in_map_iff; now exists (k, e').
      + inv Hin'; exfalso; apply H1; apply in_map_iff; now exists (k, e).
      + auto. }
  rewrite Heq; split; [reflexivity|].
  split; [now apply filter_keys_NoDup|].
  intros now' k Hle; unfold Cache.get.
  rewrite map_get_filter by assumption.
  destruct (Cache.map_get st k) as [e|]; [|reflexivity].
  unfold live_b; cbn [snd].
  destruct (Z.ltb_spec (Cache.expiresAt e) now); cbn [negb].
  - destruct (Z.ltb_spec (Cache.expiresAt e) now'); [reflexivity|lia].
  - now destruct (Z.ltb (Cache.expiresAt e) now').
Qed.

End CacheCleanup.

Section CacheCleanupWitness.

Lemma cache_cleanup_witness :
  Cache.cleanup 20
    (Cache.set 5 "b" 2 None (Cache.set 0 "a" 1 (Some 10%Z) [])) =
  Cache.set 5 "b" 2 None [].
Proof.
  rewrite (proj1 (@cache_cleanup nat 20
                    (Cache.set 5 "b" 2 None (Cache.set 0 "a" 1 (Some 10%Z) []))
                    ltac:(repeat constructor; simpl; intuition discriminate))).
  reflexivity.
Defined.

End CacheCleanupWitness.

Section HunkNumbers.

Lemma decimal_bound (d : str) : forall a,
  forallb is_digit d = true ->
  (fold_left (fun acc c => 10 * acc + digit_val c) d a
   < (a + 1) * 10 ^ N.of_nat (length d))%N.
Proof.
  induction d as [|c d IH]; intros a H.
  - simpl; lia.
  - simpl in H; apply andb_true_iff in H as [Hc Hd].
    cbn [fold_left length]; specialize (IH (10 * a + digit_val c)%N Hd).
    unfold is_digit in Hc; apply andb_true_iff in Hc as [H1 H2].
    apply N.leb_le in H1, H2.
    assert (Hv : (digit_val c <= 9)%N) by (unfold digit_val; lia).
    rewrite Nat2N.inj_succ, N.pow_succ_r'.
    eapply N.lt_le_trans; [exact IH|].
    nia.
Qed.

Lemma to_number_exact (d : str) :
  forallb is_digit d = true -> length d <= 15 ->
  to_number (decimal d) = Exact (decimal d).
Proof.
  intros Hd Hl; unfold to_number, decimal.
  pose proof (decimal_bound d 0%N Hd) as Hb.
  assert (H15 : (10 ^ N.of_nat (length d) <= 10 ^ 15)%N)
    by (apply N.pow_le_mono_r; lia).
  destruct (N.ltb_spec
              (fold_left (fun acc c => 10 * acc + digit_val c)%N d 0%N)
              (2 ^ 53)); [reflexivity|].
  exfalso; assert ((10 ^ 15 < 2 ^ 53)%N) by reflexivity; lia.
Qed.

(** Whenever the lookup returns a range, its two fields are numbers, never
    NaN, and a hunk header occurs in the argument; and the fields are read
    off the leftmost header: when its [newStart] has at most 15 digits,
    [startLine] is exactly the number written there, when its [newCount] has
    at most 15 digits, [lineCount] is exactly that number, and without
    [newCount], [lineCount] is 1. *)
Theorem parseDiffHunk_fields (s : str) (r : hunk_range) :
  parseDiffHunk s = Some r ->
  startLine r <> NaN /\ lineCount r <> NaN /\
  has_hunk_header s /\
  forall pre h post newStart newCount,
    s = pre ++ h ++ post ->
    hunk_header h newStart newCount ->
    (forall pre' h' post' newStart' newCount',
       s = pre' ++ h' ++ post' -> hunk_header h' newStart' newCount' ->
       length pre <= length pre') ->
    (length newStart <= 15 -> startLine r = Exact (decimal newStart)) /\
    (forall d, newCount = Some d -> length d <= 15 ->
               lineCount r = Exact (decimal d)) /\
    (newCount = None -> lineCount r = Exact 1).
Proof.
  intros H.
  apply parseDiffHunk_Some in H
    as (pre0 & h0 & post0 & ns0 & nc0 & Hs0 & Hh0 & -> & Hmin0).
  unfold range_of; cbn [startLine lineCount].
  split; [unfold to_number; destruct (N.ltb _ _); discriminate|].
  split; [destruct nc0; [unfold to_number; destruct (N.ltb _ _)|];
          discriminate|].
  split; [now exists pre0, h0, post0, ns0, nc0|].
  intros pre h post ns nc Hs Hh Hmin.
  pose proof (Hmin _ _ _ _ _ Hs0 Hh0) as H1.
  pose proof (Hmin0 _ _ _ _ _ Hs Hh) as H2.
  rewrite Hs in Hs0.
  apply same_length_prefix in Hs0 as [_ Hs0]; [|lia].
  destruct (hunk_header_unique _ _ Hh Hh0 Hs0) as [-> ->].
  destruct (hunk_header_digits Hh0) as [[_ Hns] Hnc].
  split; [now apply to_number_exact|].
  split.
  - intros d -> Hl; destruct (Hnc d eq_refl) as [_ Hd].
    now apply to_number_exact.
  - now intros ->.
Qed.

Lemma parseDiffHunk_fields_witness :
  exists r,
    parseDiffHunk "see @@ -7,2 +1200,35 @@ int main(void)" = Some r /\
    startLine r = Exact 1200 /\ lineCount r = Exact 35.
Proof.
  exists {| startLine := Exact 1200; lineCount := Exact 35 |}.
  split; [reflexivity|].
  assert (Hh : hunk_header "@@ -7,2 +1200,35 @@" "1200" (Some (lit "35"))).
  { exists (lit "7"), (lit ",2"), (Some (lit "2")), (lit ",35").
    split; [reflexivity|].
    split; [split; [discriminate|reflexivity]|].
    split; [right; exists (lit "2"); repeat split; discriminate|].
    split; [split; [discriminate|reflexivity]|].
    right; exists (lit "35"); repeat split; discriminate. }
  destruct (@parseDiffHunk_fields "see @@ -7,2 +1200,35 @@ int main(void)"
              {| startLine := Exact 1200; lineCount := Exact 35 |} eq_refl)
    as (_ & _ & _ & Hf).
  destruct (Hf (lit "see ") (lit "@@ -7,2 +1200,35 @@")
              (lit " int main(void)") (lit "1200") (Some (lit "35"))
              eq_refl Hh) as (Hstart & Hcount & _).
  { intros pre' h' post' ns' nc' Hs' (os & o1 & oc & o2 & -> & _).
    destruct pre' as [|c0 [|c1 [|c2 [|c3 pre']]]]; simpl; try lia;
      exfalso; cbn in Hs'; discriminate. }
  split; [apply Hstart; simpl; lia|].
  apply (Hcount (lit "35") eq_refl); simpl; lia.
Defined.

End HunkNumbers.

Section DroppedLines.








End DroppedLines.
